(** * InteractiveUpgradeUI: the choice list of [rush upgrade-interactive]

    A shallow embedding of
    [libraries/rush-lib/src/utilities/InteractiveUpgradeUI.ts].

    JavaScript objects that are shared by reference (the dependency
    records handed in by the caller, the Choice objects built by
    [choice], the Separator objects built by [unselectable]) live in a
    heap and are named by their address; arrays that stay local to one
    function are lists.  The packages [colors/safe], [cli-table] and
    [inquirer] are outside the file and enter as the interface [Env]. *)

From Stdlib Require Import ZArith Ascii String.
From stdpp Require Import base option list strings.

Local Open Scope string_scope.
Local Open Scope list_scope.

(** ** Values *)

(** A value of type [any] as the file receives it in [regError] and
    [pkgError]: nothing, or a message. *)
Inductive jsval :=
  | JUndefined
  | JString (s : string).

(** The values of [bump], as the type of [IUIGroup.filter] lists them:
    [undefined | 'major' | 'minor' | 'patch' | 'nonSemver']; [None]
    stands for [undefined]. *)
Inductive Bump := major | minor | patch | nonSemver.

#[global] Instance jsval_eq_dec : EqDecision jsval.
Proof. solve_decision. Defined.

#[global] Instance Bump_eq_dec : EqDecision Bump.
Proof. solve_decision. Defined.

(** Truthiness, per type. A flag is [undefined] ([None]), [false] or
    [true]; a string is truthy when it is not empty. *)
Definition truthy_flag (b : option bool) : bool :=
  match b with Some true => true | _ => false end.

Definition truthy_bump (b : option Bump) : bool :=
  match b with Some _ => true | None => false end.

Definition truthy_string (s : string) : bool :=
  match s with EmptyString => false | String _ _ => true end.

Definition truthy (v : jsval) : bool :=
  match v with JUndefined => false | JString s => truthy_string s end.

(** [a === b] on flags and on bumps. *)
Definition strict_eq {A} `{EqDecision A} (a b : A) : bool := bool_decide (a = b).

(** ['key' in obj] and [obj.key] for an optional key: a missing key
    reads as [undefined]. *)
Definition key_in {A} (k : option A) : bool :=
  match k with Some _ => true | None => false end.

(** [Boolean(x)] for [x] an array or [undefined]: every array is
    truthy. *)
Definition truthy_array {A} (x : option (list A)) : bool :=
  match x with Some _ => true | None => false end.

Definition get {A} (k : option (option A)) : option A :=
  match k with Some v => v | None => None end.

(** ** The data model *)

(** Modelled from the spec: the declaration of
    [NpmCheck.INpmCheckPackage] belongs to the npm-check typings, outside
    the file.  A record carries the attributes this file reads: the name,
    the versions and the homepage as texts, the two errors as values of
    type [any], and the status flags, each of which may be missing from a
    record (which reads as [undefined]); [bump] is one of the four kinds
    or absent. *)
Record Package := {
  moduleName : string;
  homepage : string;
  regError : jsval;
  pkgError : jsval;
  latest : string;
  installed : string;
  packageJson : string;
  notInstalled : option bool;
  devDependency : option bool;
  mismatch : option bool;
  bump : option Bump
}.

(** The [filter] object of a group.  The outer option is the presence of
    the key (['mismatch' in filter]), the inner one its value. *)
Record Filter := {
  filter_mismatch : option (option bool);
  filter_bump : option (option Bump);
  filter_notInstalled : option (option bool)
}.

Record IUIGroup := {
  title : string;
  bgColor : option string;
  filter : Filter
}.

Definition loc := nat.

(** [name: string | string[]]; reading past the end of an array gives
    [undefined]. *)
Inductive ChoiceName :=
  | NameRow (fields : list jsval)
  | NameLine (line : string)
  | NameUndefined.

(** [IUpgradeInteractiveDepChoice]: [value] is a reference to the
    record. *)
Record Choice := {
  c_value : loc;
  c_name : ChoiceName;
  c_short : string
}.

(** What an address can hold. [OSeparator] keeps the argument given to
    [new inquirer.Separator]. *)
Inductive Obj :=
  | OPackage (p : Package)
  | OChoice (c : Choice)
  | OSeparator (line : string).

(** One entry of the [promptQuestions] array. *)
Record Question := {
  q_name : string;
  q_message : string;
  q_type : string;
  q_choices : list loc;
  q_pageSize : Z
}.

(** [IDepsToUpgradeAnswers]. *)
Record Answers := { packages : list loc }.

(** Everything the function can read or change: the heap, what was
    written with [console.log], the questions handed to
    [inquirer.prompt], and [process.stdout.rows]. *)
Record World := {
  heap : list Obj;
  console : list string;
  prompted : list Question;
  stdout_rows : Z
}.

(** The packages outside the file. *)
Class Env := {
  yellow : string -> string;
  green : string -> string;
  red : string -> string;
  blue : string -> string;
  magenta : string -> string;
  underline : string -> string;
  bold : string -> string;
  reset : string -> string;
  (** cli-table: the text of one row under the fixed column widths *)
  renderLine : ChoiceName -> string;
  (** inquirer: whether the operator ticked the entry at a position of
      the displayed list *)
  ticked : list (option Obj) -> nat -> bool
}.

(** ** A state monad with failure

    [None] is a run-time type error (an address that holds no object of
    the expected kind); the typed source cannot reach it. *)
Definition M (A : Type) : Type := World -> option (A * World).

Definition ret {A} (a : A) : M A := fun w => Some (a, w).

Definition bind {A B} (m : M A) (k : A -> M B) : M B :=
  fun w => match m w with
           | Some (a, w') => k a w'
           | None => None
           end.

Notation "'do' x <- m ; k" := (bind m (fun x => k))
  (at level 10, x name, m at level 100, k at level 200).

Definition with_heap (h : list Obj) (w : World) : World :=
  {| heap := h; console := console w; prompted := prompted w;
     stdout_rows := stdout_rows w |}.

(** [new]: the object goes to the next free address. *)
Definition alloc (o : Obj) : M loc :=
  fun w => Some (length (heap w), with_heap (heap w ++ [o]) w).

Definition read (l : loc) : M Obj :=
  fun w => match heap w !! l with
           | Some o => Some (o, w)
           | None => None
           end.

Definition readPackage (l : loc) : M Package :=
  do o <- read l;
  match o with
  | OPackage p => ret p
  | _ => fun _ => None
  end.

Definition write (l : loc) (o : Obj) : M unit :=
  fun w => Some (tt, with_heap (<[l := o]> (heap w)) w).

Definition console_log (s : string) : M unit :=
  fun w => Some (tt, {| heap := heap w; console := console w ++ [s];
                        prompted := prompted w; stdout_rows := stdout_rows w |}).

Fixpoint mapM {A B} (f : A -> M B) (xs : list A) : M (list B) :=
  match xs with
  | [] => ret []
  | x :: xs' =>
      do y <- f x;
      do ys <- mapM f xs';
      ret (y :: ys)
  end.

Fixpoint filterM {A} (f : A -> M bool) (xs : list A) : M (list A) :=
  match xs with
  | [] => ret []
  | x :: xs' =>
      do b <- f x;
      do ys <- filterM f xs';
      ret (if b then x :: ys else ys)
  end.

(** ** Strings *)

Definition nl : ascii := "010"%char.

(** [s.split(sep)] for a separator of one character. *)
Fixpoint split (sep : ascii) (s : string) : list string :=
  match s with
  | EmptyString => [EmptyString]
  | String c rest =>
      if Ascii.eqb c sep then EmptyString :: split sep rest
      else match split sep rest with
           | [] => [String c EmptyString]
           | hd :: tl => String c hd :: tl
           end
  end.

Fixpoint has_char (c : ascii) (s : string) : bool :=
  match s with
  | EmptyString => false
  | String c' rest => Ascii.eqb c' c || has_char c rest
  end.

(** ** The program *)

Section Program.
Context `{E : Env}.

Definition greenUnderlineBold (text : string) : string :=
  underline (bold (green text)).

Definition yellowUnderlineBold (text : string) : string :=
  underline (bold (yellow text)).

Definition redUnderlineBold (text : string) : string :=
  underline (bold (red text)).

Definition magentaUnderlineBold (text : string) : string :=
  underline (bold (magenta text)).

Definition UI_GROUPS : list IUIGroup :=
  [ {| title := greenUnderlineBold "Update package.json to match version installed.";
       bgColor := None;
       filter := {| filter_mismatch := Some (Some true);
                    filter_bump := Some None;
                    filter_notInstalled := None |} |};
    {| title := greenUnderlineBold "Missing." +:+ " " +:+ green "You probably want these.";
       bgColor := None;
       filter := {| filter_mismatch := None;
                    filter_bump := Some None;
                    filter_notInstalled := Some (Some true) |} |};
    {| title := greenUnderlineBold "Patch Update" +:+ " "
                  +:+ green "Backwards-compatible bug fixes.";
       bgColor := None;
       filter := {| filter_mismatch := None;
                    filter_bump := Some (Some patch);
                    filter_notInstalled := None |} |};
    {| title := yellowUnderlineBold "Minor Update" +:+ " "
                  +:+ yellow "New backwards-compatible features.";
       bgColor := Some "yellow";
       filter := {| filter_mismatch := None;
                    filter_bump := Some (Some minor);
                    filter_notInstalled := None |} |};
    {| title := redUnderlineBold "Major Update" +:+ " "
                  +:+ red "Potentially breaking API changes. Use caution.";
       bgColor := None;
       filter := {| filter_mismatch := None;
                    filter_bump := Some (Some major);
                    filter_notInstalled := None |} |};
    {| title := magentaUnderlineBold "Non-Semver" +:+ " "
                  +:+ magenta "Versions less than 1.0.0, caution.";
       bgColor := None;
       filter := {| filter_mismatch := None;
                    filter_bump := Some (Some nonSemver);
                    filter_notInstalled := None |} |} ].

(** [a || b] on values of type [any]. *)
Definition js_or (a b : jsval) : jsval := if truthy a then a else b.

Definition label (dep : Package) : list jsval :=
  let bumpInstalled := if truthy_bump (bump dep) then installed dep else "" in
  let installed := if truthy_flag (mismatch dep) then packageJson dep else bumpInstalled in
  let name := yellow (moduleName dep) in
  let type := if truthy_flag (devDependency dep) then green " devDep" else "" in
  let missing := if truthy_flag (notInstalled dep) then red " missing" else "" in
  let homepage := if truthy_string (homepage dep) then blue (underline (homepage dep)) else "" in
  [ JString (name +:+ type +:+ missing);
    JString installed;
    JString (if truthy_string installed then ">" else installed);
    JString (bold (if truthy_string (latest dep) then latest dep else ""));
    if truthy_string (latest dep) then JString homepage
    else js_or (regError dep) (pkgError dep) ].

Definition short (dep : Package) : string :=
  moduleName dep +:+ "@" +:+ latest dep.

(** [choice] answers [false] ([None]) or the address of a new Choice,
    whose [value] is the reference it was given. *)
Definition choice (dep : loc) : M (option loc) :=
  do d <- readPackage dep;
  if negb (truthy_flag (mismatch d)) && negb (truthy_bump (bump d))
     && negb (truthy_flag (notInstalled d))
  then ret None
  else
    do c <- alloc (OChoice {| c_value := dep; c_name := NameRow (label d);
                              c_short := short d |});
    ret (Some c).

Definition unselectable (options : option string) : M loc :=
  alloc (OSeparator (reset (match options with Some t => t | None => "" end))).

(** The callback of [packages.filter] in [createChoices]. *)
Definition filterCallback (f : Filter) (pkg : Package) : bool :=
  if key_in (filter_mismatch f)
     && negb (strict_eq (mismatch pkg) (get (filter_mismatch f)))
  then false
  else if key_in (filter_bump f)
          && negb (strict_eq (bump pkg) (get (filter_bump f)))
  then false
  else if key_in (filter_notInstalled f)
          && negb (strict_eq (notInstalled pkg) (get (filter_notInstalled f)))
  then false
  else true.

(** Modelled from the spec: [cliTable.toString()] for the rows pushed so
    far.  cli-table is a package outside the file; by the TableBuilder
    contract the text has one line per row, in the order of the rows,
    without borders.  The text of a table without rows is empty. *)
Definition tableToString (rows : list ChoiceName) : string :=
  String.concat (String nl EmptyString) (map renderLine rows).

(** [for (const choice of choices) if (typeof choice === 'object' &&
    'name' in choice) cliTable.push(choice.name)]: a Separator has no
    [name]. *)
Fixpoint pushRows (choices : list loc) (cliTable : list ChoiceName)
  : M (list ChoiceName) :=
  match choices with
  | [] => ret cliTable
  | c :: rest =>
      do o <- read c;
      match o with
      | OChoice ch => pushRows rest (cliTable ++ [c_name ch])
      | _ => pushRows rest cliTable
      end
  end.

(** [choicesAsATable[i]] *)
Definition lineAt (choicesAsATable : list string) (i : nat) : ChoiceName :=
  match choicesAsATable !! i with
  | Some s => NameLine s
  | None => NameUndefined
  end.

(** [for (let i = 0; i < choices.length; i++) ... choice.name =
    choicesAsATable[i]], from index [i] on. *)
Fixpoint rewriteNames (choicesAsATable : list string) (i : nat)
  (choices : list loc) : M unit :=
  match choices with
  | [] => ret tt
  | c :: rest =>
      do o <- read c;
      do _ <- match o with
              | OChoice ch =>
                  write c (OChoice {| c_value := c_value ch;
                                      c_name := lineAt choicesAsATable i;
                                      c_short := c_short ch |})
              | _ => ret tt
              end;
      rewriteNames choicesAsATable (S i) rest
  end.

(** [createChoices] answers [undefined] ([None]) or the array.
    [.filter(Boolean)] drops the [false] answers of [choice]; what stays
    are addresses. *)
Definition createChoices (packages : list loc) (options : IUIGroup)
  : M (option (list loc)) :=
  let filter := filter options in
  do filteredChoices <-
    filterM (fun pkg => do p <- readPackage pkg; ret (filterCallback filter p)) packages;
  do made <- mapM choice filteredChoices;
  let choices := omap id made in
  do cliTable <- pushRows choices [];
  let choicesAsATable := split nl (tableToString cliTable) in
  do _ <- rewriteNames choicesAsATable 0 choices;
  if Nat.ltb 0 (length choices) then
    do t <- unselectable (Some (title options));
    let choices := t :: choices in
    do b <- unselectable None;
    let choices := b :: choices in
    ret (Some choices)
  else ret None.

(** What the boundary shows for a question: the object behind each
    entry of [choices]. *)
Definition shown (w : World) (q : Question) : list (option Obj) :=
  map (fun l => heap w !! l) (q_choices q).

(** Modelled from the spec: what a checkbox prompt answers, the
    [value] of every Choice the operator ticked, in the order of the
    list; a Separator cannot be ticked. *)
Definition picks (entries : list (option Obj)) : list loc :=
  omap id (imap (fun i o =>
                   match o with
                   | Some (OChoice c) => if ticked entries i then Some (c_value c) else None
                   | _ => None
                   end) entries).

(** Modelled from the spec: [inquirer.prompt] with one checkbox
    question.  inquirer is a package outside the file; the boundary
    receives the list and returns the records wrapped by the Choices
    that were selected. *)
Definition prompt (q : Question) : M Answers :=
  fun w =>
    Some ({| packages := picks (shown w q) |},
          {| heap := heap w; console := console w;
             prompted := prompted w ++ [q]; stdout_rows := stdout_rows w |}).

Definition readRows : M Z := fun w => Some (stdout_rows w, w).

Definition upgradeInteractive (pkgs : list loc) : M Answers :=
  do made <- mapM (fun group => createChoices pkgs group) UI_GROUPS;
  let choicesGrouped := List.filter truthy_array made in
  let choices :=
    fold_left (fun choices choiceGroup =>
                 match choiceGroup with
                 | Some g => choices ++ g
                 | None => choices
                 end) choicesGrouped [] in
  if Nat.eqb (length choices) 0 then
    do _ <- console_log "All dependencies are up to date!";
    ret {| packages := [] |}
  else
    do b <- unselectable None;
    let choices := choices ++ [b] in
    do i <- unselectable
              (Some "Space to select. Enter to start upgrading. Control-C to cancel.");
    let choices := choices ++ [i] in
    do e <- unselectable None;
    do rows <- readRows;
    let promptQuestions :=
      {| q_name := "packages";
         q_message := "Choose which packages to upgrade";
         q_type := "checkbox";
         q_choices := choices ++ [e];
         q_pageSize := (rows - 2)%Z |} in
    do answers <- prompt promptQuestions;
    ret answers.

End Program.

(** ** Concrete surroundings, for running the program *)

Definition esc (code : string) : string := String "027"%char ("[" +:+ code +:+ "m").

(** colors/safe with colours switched on: the empty text stays empty. *)
Definition ansi (open close : string) (s : string) : string :=
  if truthy_string s then esc open +:+ s +:+ esc close else s.

Fixpoint drop_char (c : ascii) (s : string) : string :=
  match s with
  | EmptyString => EmptyString
  | String c' rest => if Ascii.eqb c' c then drop_char c rest else String c' (drop_char c rest)
  end.

Definition show (v : jsval) : string :=
  match v with JUndefined => "" | JString s => s end.

(** A table renderer that keeps each row on one line. *)
Definition plainLine (n : ChoiceName) : string :=
  match n with
  | NameRow fields => drop_char nl (String.concat " " (map show fields))
  | NameLine s => drop_char nl s
  | NameUndefined => ""
  end.

(** An operator who ticks every entry. *)
Definition ansiEnv : Env :=
  {| yellow := ansi "33" "39"; green := ansi "32" "39"; red := ansi "31" "39";
     blue := ansi "34" "39"; magenta := ansi "35" "39";
     underline := ansi "4" "24"; bold := ansi "1" "22"; reset := ansi "0" "0";
     renderLine := plainLine;
     ticked := fun _ _ => true |}.

(** colours switched off, same table and operator *)
Definition plainEnv : Env :=
  {| yellow := id; green := id; red := id; blue := id; magenta := id;
     underline := id; bold := id; reset := id;
     renderLine := plainLine;
     ticked := fun _ _ => true |}.

Definition leftPad : Package :=
  {| moduleName := "left-pad"; homepage := ""; regError := JUndefined;
     pkgError := JUndefined; latest := "1.0.0"; installed := "1.0.0";
     packageJson := "1.1.0"; notInstalled := None; devDependency := None;
     mismatch := Some true; bump := None |}.

Definition rimraf : Package :=
  {| moduleName := "rimraf"; homepage := "https://github.com/isaacs/rimraf";
     regError := JUndefined; pkgError := JUndefined; latest := "3.0.0";
     installed := "2.0.0"; packageJson := "^2.0.0"; notInstalled := Some false;
     devDependency := Some true; mismatch := Some false; bump := Some major |}.

Definition upToDate : Package :=
  {| moduleName := "semver"; homepage := ""; regError := JUndefined;
     pkgError := JUndefined; latest := "7.0.0"; installed := "7.0.0";
     packageJson := "7.0.0"; notInstalled := Some false; devDependency := Some false;
     mismatch := Some false; bump := None |}.

(** mismatch and notInstalled together, no bump *)
Definition ghost : Package :=
  {| moduleName := "ghost"; homepage := ""; regError := JUndefined;
     pkgError := JUndefined; latest := "1.0.0"; installed := "";
     packageJson := "1.0.0"; notInstalled := Some true; devDependency := None;
     mismatch := Some true; bump := None |}.

(** A table renderer that, like cli-table, lets a line break inside a
    cell start a new line of the table. *)
Definition rawLine (n : ChoiceName) : string :=
  match n with
  | NameRow fields => String.concat " " (map show fields)
  | NameLine s => s
  | NameUndefined => ""
  end.

(** colours switched off, line breaks kept, an operator who ticks every
    entry *)
Definition rawEnv : Env :=
  {| yellow := id; green := id; red := id; blue := id; magenta := id;
     underline := id; bold := id; reset := id;
     renderLine := rawLine;
     ticked := fun _ _ => true |}.

(** A record whose manifest differs and whose registry lookup failed
    with a message of two lines. *)
Definition noisy : Package :=
  {| moduleName := "noisy"; homepage := "";
     regError := JString ("E404" +:+ String nl "Not found");
     pkgError := JUndefined; latest := ""; installed := "1.0.0";
     packageJson := "^2.0.0"; notInstalled := None; devDependency := None;
     mismatch := Some true; bump := None |}.

Definition world_of (ps : list Package) : World :=
  {| heap := map OPackage ps; console := []; prompted := []; stdout_rows := 24 |}.

(** One record to upgrade, one up to date, one whose manifest differs. *)
Definition sample : World := world_of [rimraf; upToDate; leftPad].

(** A group whose filter has no key. *)
Definition anyGroup : IUIGroup :=
  {| title := "Everything";
     bgColor := None;
     filter := {| filter_mismatch := None; filter_bump := None;
                  filter_notInstalled := None |} |}.

(** ** Vocabulary of the statements *)

(** The record an address holds, if it holds one. *)
Definition pkgAt (h : list Obj) (l : loc) : option Package :=
  match h !! l with
  | Some (OPackage p) => Some p
  | _ => None
  end.

(** The caller hands in an array of references to records. *)
Definition wf_input (h : list Obj) (pkgs : list loc) : Prop :=
  Forall (fun l => is_Some (pkgAt h l)) pkgs.

(** At least one of [mismatch], [bump], [notInstalled] is set. *)
Definition qualifies (p : Package) : bool :=
  truthy_flag (mismatch p) || truthy_bump (bump p) || truthy_flag (notInstalled p).

(** The records of [ls], in order, that get a Choice. *)
Definition candidates (h : list Obj) (ls : list loc) : list (loc * Package) :=
  omap (fun l => match pkgAt h l with
                 | Some p => if qualifies p then Some (l, p) else None
                 | None => None
                 end) ls.

(** The records of a group: those that pass its filter and get a
    Choice, in the order of the input. *)
Definition survivors (h : list Obj) (f : Filter) (pkgs : list loc)
  : list (loc * Package) :=
  omap (fun l => match pkgAt h l with
                 | Some p => if filterCallback f p && qualifies p then Some (l, p) else None
                 | None => None
                 end) pkgs.

Definition one_line (s : string) : bool := negb (has_char nl s).

Section Vocabulary.
Context `{E : Env}.

(** The Choice that [choice] builds for a record. *)
Definition newChoice (lp : loc * Package) : Choice :=
  {| c_value := lp.1; c_name := NameRow (label lp.2); c_short := short lp.2 |}.

(** The lines of the table of a group. *)
Definition tableLines (sv : list (loc * Package)) : list string :=
  split nl (tableToString (map (fun lp => c_name (newChoice lp)) sv)).

Definition rename (n : ChoiceName) (c : Choice) : Choice :=
  {| c_value := c_value c; c_name := n; c_short := c_short c |}.

(** The Choices of a group after the rewrite, from index [i] on. *)
Fixpoint renamed (lines : list string) (i : nat) (cs : list Choice) : list Obj :=
  match cs with
  | [] => []
  | c :: rest => OChoice (rename (lineAt lines i) c) :: renamed lines (S i) rest
  end.

Definition groupChoices (sv : list (loc * Package)) : list Obj :=
  renamed (tableLines sv) 0 (map newChoice sv).

(** The objects [createChoices] allocates for a group, by address. *)
Definition groupObjects (g : IUIGroup) (sv : list (loc * Package)) : list Obj :=
  match sv with
  | [] => []
  | _ => groupChoices sv ++ [OSeparator (reset (title g)); OSeparator (reset "")]
  end.

(** The array [createChoices] returns when the heap has [n] objects. *)
Definition groupArray (n : nat) (sv : list (loc * Package)) : option (list loc) :=
  match sv with
  | [] => None
  | _ => Some (n + length sv + 1 :: n + length sv :: seq n (length sv))
  end.

(** The entries a group shows, in the order of the list. *)
Definition groupBlock (g : IUIGroup) (sv : list (loc * Package)) : list Obj :=
  match sv with
  | [] => []
  | _ => OSeparator (reset "") :: OSeparator (reset (title g)) :: groupChoices sv
  end.

(** The arrays [createChoices] returns for the groups [gs], one call
    after the other, when the heap has [n] objects before the first. *)
Fixpoint groupArrays (sv_of : IUIGroup -> list (loc * Package)) (n : nat)
  (gs : list IUIGroup) : list (option (list loc)) :=
  match gs with
  | [] => []
  | g :: rest =>
      groupArray n (sv_of g)
      :: groupArrays sv_of (n + length (groupObjects g (sv_of g))) rest
  end.

Definition allObjects (sv_of : IUIGroup -> list (loc * Package))
  (gs : list IUIGroup) : list Obj :=
  flat_map (fun g => groupObjects g (sv_of g)) gs.

Definition allBlocks (sv_of : IUIGroup -> list (loc * Package))
  (gs : list IUIGroup) : list Obj :=
  flat_map (fun g => groupBlock g (sv_of g)) gs.

(** The arrays that are not [undefined], one after the other. *)
Definition joined (arrs : list (option (list loc))) : list loc :=
  concat (omap id arrs).

(** The loop of [upgradeInteractive] that spreads the groups into one
    array. *)
Definition spread (choicesGrouped : list (option (list loc))) (choices : list loc)
  : list loc :=
  fold_left (fun choices choiceGroup =>
               match choiceGroup with
               | Some g => choices ++ g
               | None => choices
               end) choicesGrouped choices.

(** The three entries after the groups. *)
Definition trailer : list Obj :=
  [ OSeparator (reset "");
    OSeparator (reset "Space to select. Enter to start upgrading. Control-C to cancel.");
    OSeparator (reset "") ].

(** The Choices among the entries of a displayed list, in order. *)
Definition choicesIn (entries : list (option Obj)) : list Choice :=
  omap (fun o => match o with Some (OChoice c) => Some c | _ => None end) entries.

(** The texts of the Separators among some entries, in order. *)
Definition separators (entries : list Obj) : list string :=
  omap (fun o => match o with OSeparator s => Some s | _ => None end) entries.

(** Two states of one address that differ at most in the [name] of a
    Choice. *)
Definition nameOnly (a b : option Obj) : Prop :=
  a = b \/
  exists c n, a = Some (OChoice c) /\
              b = Some (OChoice {| c_value := c_value c; c_name := n;
                                   c_short := c_short c |}).

(** The question [upgradeInteractive] asks about the array [choices]. *)
Definition question (choices : list loc) (rows : Z) : Question :=
  {| q_name := "packages";
     q_message := "Choose which packages to upgrade";
     q_type := "checkbox";
     q_choices := choices;
     q_pageSize := (rows - 2)%Z |}.

End Vocabulary.

(** ** Properties *)

(** Well-formedness of a concrete input. *)
Ltac solve_wf :=
  unfold wf_input; repeat (constructor; [eexists; reflexivity|]); constructor.

Section Properties.
Context `{E : Env}.

(** *** The monad and the heap *)

Lemma bind_run {A B} (m : M A) (k : A -> M B) w a w' :
  m w = Some (a, w') -> bind m k w = k a w'.
Proof. unfold bind. intros ->. reflexivity. Qed.

Lemma with_heap_id w : with_heap (heap w) w = w.
Proof. destruct w; reflexivity. Qed.

Lemma pkgAt_lt h l p : pkgAt h l = Some p -> l < length h.
Proof.
  unfold pkgAt. destruct (h !! l) eqn:Hl; [|discriminate].
  intros _. eapply lookup_lt_Some; eauto.
Qed.

Lemma pkgAt_app h ext l : is_Some (pkgAt h l) -> pkgAt (h ++ ext) l = pkgAt h l.
Proof.
  intros [p Hp]. unfold pkgAt. rewrite lookup_app_l; [reflexivity|].
  eapply pkgAt_lt; eauto.
Qed.

Lemma wf_input_app h ext pkgs : wf_input h pkgs -> wf_input (h ++ ext) pkgs.
Proof.
  unfold wf_input. intros H. eapply Forall_impl; [exact H|].
  intros l Hl. simpl. rewrite pkgAt_app; assumption.
Qed.

Lemma survivors_cons h f l ls :
  survivors h f (l :: ls)
  = match pkgAt h l with
    | Some p => if filterCallback f p && qualifies p
                then (l, p) :: survivors h f ls else survivors h f ls
    | None => survivors h f ls
    end.
Proof.
  unfold survivors. simpl. destruct (pkgAt h l) as [p|]; [|reflexivity].
  destruct (filterCallback f p && qualifies p); reflexivity.
Qed.

Lemma candidates_cons h l ls :
  candidates h (l :: ls)
  = match pkgAt h l with
    | Some p => if qualifies p then (l, p) :: candidates h ls else candidates h ls
    | None => candidates h ls
    end.
Proof.
  unfold candidates. simpl. destruct (pkgAt h l) as [p|]; [|reflexivity].
  destruct (qualifies p); reflexivity.
Qed.

Lemma survivors_app h ext f pkgs :
  wf_input h pkgs -> survivors (h ++ ext) f pkgs = survivors h f pkgs.
Proof.
  induction 1 as [|l ls Hl _ IH]; [reflexivity|].
  rewrite !survivors_cons, pkgAt_app, IH; [reflexivity|assumption].
Qed.

Lemma readPackage_run w l p : pkgAt (heap w) l = Some p -> readPackage l w = Some (p, w).
Proof.
  unfold pkgAt, readPackage, bind, read.
  destruct (heap w !! l) as [[]|]; try discriminate. intros [= ->]. reflexivity.
Qed.

(** [packages.filter(...)] reads the records and changes nothing. *)
Lemma filterM_run f pkgs w :
  wf_input (heap w) pkgs ->
  filterM (fun pkg => do p <- readPackage pkg; ret (filterCallback f p)) pkgs w
  = Some (List.filter (fun l => match pkgAt (heap w) l with
                                | Some p => filterCallback f p
                                | None => false
                                end) pkgs, w).
Proof.
  induction 1 as [|l ls [p Hp] _ IH]; [reflexivity|].
  simpl. erewrite bind_run; [|erewrite bind_run; [reflexivity|apply readPackage_run; eauto]].
  erewrite bind_run; [|exact IH]. rewrite Hp. unfold ret.
  destruct (filterCallback f p); reflexivity.
Qed.

Lemma filter_wf h (P : loc -> bool) pkgs : wf_input h pkgs -> wf_input h (List.filter P pkgs).
Proof.
  unfold wf_input. induction 1 as [|l ls Hl _ IH]; simpl; [constructor|].
  destruct (P l); [constructor|]; assumption.
Qed.

Lemma candidates_filter h f pkgs :
  candidates h (List.filter (fun l => match pkgAt h l with
                                      | Some p => filterCallback f p
                                      | None => false
                                      end) pkgs) = survivors h f pkgs.
Proof.
  induction pkgs as [|l ls IH]; [reflexivity|].
  rewrite survivors_cons. cbn [List.filter].
  destruct (pkgAt h l) as [p|] eqn:Hp; [|exact IH].
  destruct (filterCallback f p); cbn [andb]; [|exact IH].
  rewrite candidates_cons, Hp, IH. reflexivity.
Qed.

(** [choice] on a record: nothing for a record without flags, else a
    new Choice at the next address. *)
Lemma choice_run w l p :
  pkgAt (heap w) l = Some p ->
  choice l w = if qualifies p
               then Some (Some (length (heap w)),
                          with_heap (heap w ++ [OChoice (newChoice (l, p))]) w)
               else Some (None, w).
Proof.
  intros Hp. unfold choice. erewrite bind_run; [|apply readPackage_run; eassumption].
  unfold qualifies.
  destruct (truthy_flag (mismatch p)), (truthy_bump (bump p)),
    (truthy_flag (notInstalled p)); reflexivity.
Qed.

Lemma omap_id_Some {A} (x : A) l : omap id (Some x :: l) = x :: omap id l.
Proof. reflexivity. Qed.

Lemma omap_id_None {A} (l : list (option A)) : omap id (None :: l) = omap id l.
Proof. reflexivity. Qed.

(** [filteredChoices.map(choice).filter(Boolean)]: the new Choices take
    consecutive addresses. *)
Lemma mapM_choice h ls :
  wf_input h ls ->
  forall acc w, heap w = h ++ acc ->
  exists made,
    mapM choice ls w
    = Some (made, with_heap (h ++ acc ++ map (fun lp => OChoice (newChoice lp))
                                             (candidates h ls)) w) /\
    omap id made = seq (length (h ++ acc)) (length (candidates h ls)).
Proof.
  induction 1 as [|l ls [p Hp] _ IH]; intros acc w Hw.
  - exists []. simpl. rewrite app_nil_r, <- Hw, with_heap_id. split; reflexivity.
  - assert (Hpw : pkgAt (heap w) l = Some p) by (rewrite Hw, pkgAt_app; eauto).
    rewrite candidates_cons, Hp. cbn [mapM].
    pose proof (choice_run w l p Hpw) as Hc.
    destruct (qualifies p); (erewrite bind_run; [|exact Hc]).
    + destruct (IH (acc ++ [OChoice (newChoice (l, p))])
                  (with_heap (heap w ++ [OChoice (newChoice (l, p))]) w))
        as (made & Hrun & Hmade).
      { simpl. rewrite Hw, <- app_assoc. reflexivity. }
      exists (Some (length (heap w)) :: made).
      erewrite bind_run; [|exact Hrun]. split.
      * unfold ret. simpl. rewrite <- !app_assoc. reflexivity.
      * rewrite omap_id_Some, Hmade, Hw. cbn [seq length]. f_equal.
        rewrite !length_app. simpl. f_equal. lia.
    + destruct (IH acc w Hw) as (made & Hrun & Hmade).
      exists (None :: made). erewrite bind_run; [|exact Hrun]. split; [reflexivity|].
      rewrite omap_id_None. exact Hmade.
Qed.

Lemma insert_middle {A} (pre : list A) x y post :
  <[length pre := y]> (pre ++ x :: post) = pre ++ y :: post.
Proof. induction pre as [|a pre IH]; simpl; [reflexivity|]. rewrite IH. reflexivity. Qed.

Lemma length_snoc {A} (pre : list A) x : length (pre ++ [x]) = S (length pre).
Proof. rewrite length_app. simpl. lia. Qed.

Lemma length_renamed lines i cs : length (renamed lines i cs) = length cs.
Proof. revert i. induction cs as [|c cs IH]; intros i; simpl; [|rewrite IH]; reflexivity. Qed.

Lemma renamed_lookup lines cs : forall i j,
  renamed lines i cs !! j
  = (fun c => OChoice (rename (lineAt lines (i + j)) c)) <$> cs !! j.
Proof.
  induction cs as [|c cs IH]; intros i j; [reflexivity|].
  destruct j as [|j]; simpl.
  - rewrite Nat.add_0_r. reflexivity.
  - rewrite IH. replace (S i + j) with (i + S j) by lia. reflexivity.
Qed.

(** The loop that fills the table reads the names of the new Choices,
    in order. *)
Lemma pushRows_run cs : forall pre acc w,
  heap w = pre ++ map OChoice cs ->
  pushRows (seq (length pre) (length cs)) acc w = Some (acc ++ map c_name cs, w).
Proof.
  induction cs as [|c cs IH]; intros pre acc w Hw.
  - simpl. rewrite app_nil_r. reflexivity.
  - cbn [length seq pushRows map].
    erewrite bind_run; cycle 1.
    { unfold read. rewrite Hw. cbn [map]. rewrite list_lookup_middle; reflexivity. }
    cbn beta iota. rewrite <- length_snoc with (x := OChoice c).
    rewrite IH; [rewrite <- app_assoc; reflexivity|].
    rewrite Hw. cbn [map]. rewrite <- app_assoc. reflexivity.
Qed.

(** The loop that writes the lines back gives Choice [i] line [i] and
    touches nothing else. *)
Lemma rewriteNames_run lines cs : forall pre i w,
  heap w = pre ++ map OChoice cs ->
  rewriteNames lines i (seq (length pre) (length cs)) w
  = Some (tt, with_heap (pre ++ renamed lines i cs) w).
Proof.
  induction cs as [|c cs IH]; intros pre i w Hw.
  - simpl in *. rewrite <- Hw, with_heap_id. reflexivity.
  - cbn [length seq rewriteNames map renamed].
    erewrite bind_run; cycle 1.
    { unfold read. rewrite Hw. cbn [map]. rewrite list_lookup_middle; reflexivity. }
    cbn beta iota. erewrite bind_run; [|reflexivity].
    rewrite <- length_snoc with (x := OChoice (rename (lineAt lines i) c)).
    rewrite IH.
    + unfold with_heap. simpl. rewrite <- app_assoc. reflexivity.
    + simpl. rewrite Hw. cbn [map]. rewrite insert_middle, <- app_assoc. reflexivity.
Qed.

(** [createChoices] on well-formed input: the array it returns and the
    objects it adds to the heap. *)
Lemma createChoices_run pkgs g w :
  wf_input (heap w) pkgs ->
  let sv := survivors (heap w) (filter g) pkgs in
  createChoices pkgs g w
  = Some (groupArray (length (heap w)) sv, with_heap (heap w ++ groupObjects g sv) w).
Proof.
  intros Hwf sv. unfold createChoices.
  erewrite bind_run; [|apply filterM_run; exact Hwf].
  set (passes := fun l : loc => match pkgAt (heap w) l with
                                | Some p => filterCallback (filter g) p
                                | None => false
                                end).
  destruct (mapM_choice (heap w) _ (filter_wf _ passes _ Hwf) [] w)
    as (made & Hrun & Hmade).
  { rewrite app_nil_r. reflexivity. }
  unfold passes in Hrun, Hmade.
  rewrite candidates_filter in Hrun, Hmade. fold sv in Hrun, Hmade.
  rewrite app_nil_r in Hmade. cbn [app] in Hrun.
  erewrite bind_run; [|exact Hrun]. rewrite Hmade.
  rewrite <- (length_map newChoice sv).
  erewrite bind_run; cycle 1.
  { apply pushRows_run. simpl. rewrite map_map. reflexivity. }
  erewrite bind_run; cycle 1.
  { apply rewriteNames_run. simpl. rewrite map_map. reflexivity. }
  rewrite length_seq, length_map. cbn [app]. rewrite map_map.
  fold (tableLines sv). fold (groupChoices sv).
  unfold groupArray, groupObjects.
  destruct sv as [|lp sv'] eqn:Hsv.
  - unfold groupChoices, ret, with_heap. simpl. rewrite !app_nil_r.
    destruct w; reflexivity.
  - cbn [length Nat.ltb Nat.leb]. unfold unselectable.
    erewrite bind_run; [|reflexivity]. erewrite bind_run; [|reflexivity].
    unfold ret, with_heap. simpl. rewrite !length_app. unfold groupChoices.
    rewrite length_renamed, length_map. simpl.
    rewrite <- !app_assoc. simpl. repeat f_equal; lia.
Qed.

(** The groups, one after the other: every call sees the records where
    they were and adds its objects at the end. *)
Lemma mapM_groups h pkgs (Hwf : wf_input h pkgs) gs :
  let sv_of g := survivors h (filter g) pkgs in
  forall acc w, heap w = h ++ acc ->
  mapM (fun group => createChoices pkgs group) gs w
  = Some (groupArrays sv_of (length (h ++ acc)) gs,
          with_heap (h ++ acc ++ allObjects sv_of gs) w).
Proof.
  intros sv_of. induction gs as [|g gs IH]; intros acc w Hw.
  - simpl. unfold allObjects. simpl. rewrite app_nil_r, <- Hw, with_heap_id. reflexivity.
  - cbn [mapM]. erewrite bind_run; cycle 1.
    { apply createChoices_run. rewrite Hw. apply wf_input_app, Hwf. }
    cbn zeta. rewrite Hw, (survivors_app _ _ _ _ Hwf).
    fold (sv_of g).
    erewrite bind_run; cycle 1.
    { apply (IH (acc ++ groupObjects g (sv_of g))). simpl. rewrite <- app_assoc.
      reflexivity. }
    unfold ret, allObjects. simpl. rewrite <- !app_assoc, !length_app.
    rewrite Nat.add_assoc. reflexivity.
Qed.

Lemma spread_concat arrs : forall acc,
  spread (List.filter truthy_array arrs) acc = acc ++ joined arrs.
Proof.
  unfold spread, joined. induction arrs as [|[a|] arrs IH]; intros acc.
  - simpl. rewrite app_nil_r. reflexivity.
  - cbn [List.filter truthy_array fold_left]. rewrite IH, omap_id_Some. simpl.
    rewrite app_assoc. reflexivity.
  - cbn [List.filter truthy_array]. rewrite IH, omap_id_None. reflexivity.
Qed.

Lemma lookup_seq_middle {A} (xs : list A) : forall pre post,
  map (fun l => (pre ++ xs ++ post) !! l) (seq (length pre) (length xs)) = map Some xs.
Proof.
  induction xs as [|x xs IH]; intros pre post; [reflexivity|].
  cbn [length seq map]. f_equal.
  - apply list_lookup_middle. reflexivity.
  - rewrite <- (length_snoc pre x), <- (IH (pre ++ [x]) post).
    apply map_ext. intros l. rewrite <- !app_assoc. reflexivity.
Qed.

Lemma lookup_after {A} (pre xs : list A) t b rest :
  (pre ++ xs ++ t :: b :: rest) !! (length pre + length xs) = Some t /\
  (pre ++ xs ++ t :: b :: rest) !! (length pre + length xs + 1) = Some b.
Proof.
  split.
  - rewrite lookup_app_r by lia. rewrite lookup_app_r by lia.
    replace (length pre + length xs - length pre - length xs) with 0 by lia.
    reflexivity.
  - rewrite lookup_app_r by lia. rewrite lookup_app_r by lia.
    replace (length pre + length xs + 1 - length pre - length xs) with 1 by lia.
    reflexivity.
Qed.

(** Reading the returned arrays in the final heap gives, group after
    group, a blank Separator, the titled Separator and the Choices. *)
Lemma display_groups sv_of gs : forall pre post,
  map (fun l => (pre ++ allObjects sv_of gs ++ post) !! l)
      (joined (groupArrays sv_of (length pre) gs))
  = map Some (allBlocks sv_of gs).
Proof.
  unfold joined.
  induction gs as [|g gs IH]; intros pre post; [reflexivity|].
  cbn [groupArrays]. unfold allObjects, allBlocks. cbn [flat_map].
  fold (allObjects sv_of gs). fold (allBlocks sv_of gs).
  unfold groupArray, groupObjects, groupBlock.
  destruct (sv_of g) as [|lp sv'] eqn:Hsv.
  - rewrite omap_id_None. cbn [length app]. rewrite Nat.add_0_r. apply IH.
  - rewrite omap_id_Some. cbn [concat]. rewrite map_app, map_app.
    set (gc := groupChoices (lp :: sv')).
    assert (Hk : length (lp :: sv') = length gc).
    { unfold gc, groupChoices. rewrite length_renamed, length_map. reflexivity. }
    rewrite Hk. f_equal.
    + cbn [map]. f_equal; [|f_equal].
      * rewrite <- !app_assoc. cbn [app]. apply lookup_after.
      * rewrite <- !app_assoc. cbn [app]. apply lookup_after.
      * rewrite <- !app_assoc. apply lookup_seq_middle.
    + rewrite <- (IH (pre ++ gc ++ [OSeparator (reset (title g)); OSeparator (reset "")])
                     post).
      rewrite !length_app. apply map_ext. intros l. rewrite <- !app_assoc. reflexivity.
Qed.

(** The addresses named by the returned arrays exist. *)
Lemma concat_arrays_nil sv_of gs : forall n,
  joined (groupArrays sv_of n gs) = [] -> allObjects sv_of gs = [].
Proof.
  unfold joined.
  induction gs as [|g gs IH]; intros n; [reflexivity|].
  cbn [groupArrays]. unfold allObjects. cbn [flat_map]. unfold groupArray, groupObjects.
  destruct (sv_of g) as [|lp sv'].
  - rewrite omap_id_None. cbn [length app]. apply IH.
  - rewrite omap_id_Some. discriminate.
Qed.

(** The whole run on well-formed input. *)
Lemma upgradeInteractive_run pkgs w :
  wf_input (heap w) pkgs ->
  let sv_of g := survivors (heap w) (filter g) pkgs in
  let arr := joined (groupArrays sv_of (length (heap w)) UI_GROUPS) in
  let h1 := heap w ++ allObjects sv_of UI_GROUPS in
  upgradeInteractive pkgs w
  = match arr with
    | [] => Some ({| packages := [] |},
                  {| heap := heap w;
                     console := console w ++ ["All dependencies are up to date!"];
                     prompted := prompted w; stdout_rows := stdout_rows w |})
    | _ => let q := question (arr ++ [length h1; length h1 + 1; length h1 + 2])
                             (stdout_rows w) in
           let w' := {| heap := h1 ++ trailer; console := console w;
                        prompted := prompted w ++ [q];
                        stdout_rows := stdout_rows w |} in
           Some ({| packages := picks (shown w' q) |}, w')
    end.
Proof.
  intros Hwf sv_of arr h1. unfold upgradeInteractive.
  erewrite bind_run; cycle 1.
  { apply (mapM_groups (heap w) pkgs Hwf UI_GROUPS []). rewrite app_nil_r. reflexivity. }
  fold sv_of. cbn [app]. rewrite app_nil_r.
  change (fold_left _ (List.filter truthy_array ?a) []) with (spread (List.filter truthy_array a) []).
  rewrite spread_concat. cbn [app]. subst arr. fold h1.
  destruct (joined (groupArrays sv_of (length (heap w)) UI_GROUPS))
    as [|a arr'] eqn:Harr.
  - cbn [length Nat.eqb]. unfold h1. erewrite concat_arrays_nil by exact Harr.
    rewrite app_nil_r, with_heap_id. reflexivity.
  - cbn [length Nat.eqb]. unfold unselectable.
    erewrite bind_run; [|reflexivity]. erewrite bind_run; [|reflexivity].
    erewrite bind_run; [|reflexivity]. erewrite bind_run; [|reflexivity].
    unfold prompt, bind, ret, question, shown, trailer, with_heap.
    cbn [heap console prompted stdout_rows q_choices].
    rewrite !length_app. cbn [length]. rewrite <- !app_assoc. cbn [app].
    replace (length h1 + 1 + 1) with (length h1 + 2) by lia.
    reflexivity.
Qed.

(** What the operator is shown: the groups, then three Separators. *)
Lemma display_final sv_of gs h :
  let h1 := h ++ allObjects sv_of gs in
  map (fun l => (h1 ++ trailer) !! l)
      (joined (groupArrays sv_of (length h) gs)
         ++ [length h1; length h1 + 1; length h1 + 2])
  = map Some (allBlocks sv_of gs ++ trailer).
Proof.
  intros h1. rewrite !map_app. f_equal.
  - unfold h1. rewrite <- (display_groups sv_of gs h trailer).
    apply map_ext. intros l. rewrite <- app_assoc. reflexivity.
  - unfold trailer. cbn [map]. f_equal; [|f_equal; [|f_equal]].
    + apply list_lookup_middle. reflexivity.
    + rewrite lookup_app_r by lia.
      replace (length h1 + 1 - length h1) with 1 by lia. reflexivity.
    + rewrite lookup_app_r by lia.
      replace (length h1 + 2 - length h1) with 2 by lia. reflexivity.
Qed.

(** One group: what [createChoices] returns, read in the heap it
    leaves. *)
Lemma createChoices_shown pkgs g w :
  wf_input (heap w) pkgs ->
  let sv := survivors (heap w) (filter g) pkgs in
  exists res w',
    createChoices pkgs g w = Some (res, w') /\
    w' = with_heap (heap w ++ groupObjects g sv) w /\
    match res with
    | None => sv = []
    | Some arr => sv <> [] /\ map (fun l => heap w' !! l) arr = map Some (groupBlock g sv)
    end.
Proof.
  intros Hwf sv. eexists _, _. split; [apply createChoices_run; exact Hwf|].
  split; [reflexivity|]. fold sv. unfold groupArray, groupObjects, groupBlock.
  destruct sv as [|lp sv'] eqn:Hsv; [reflexivity|]. split; [discriminate|].
  set (gc := groupChoices (lp :: sv')).
  assert (Hk : length (lp :: sv') = length gc).
  { unfold gc, groupChoices. rewrite length_renamed, length_map. reflexivity. }
  rewrite Hk. cbn [heap with_heap map]. f_equal; [|f_equal].
  - apply lookup_after.
  - apply lookup_after.
  - apply (lookup_seq_middle gc (heap w) [_; _]).
Qed.

(** *** The table *)

Lemma split_append s rest :
  has_char nl s = false -> split nl (s +:+ String nl rest) = s :: split nl rest.
Proof.
  induction s as [|c s IH]; simpl.
  - intros _. reflexivity.
  - intros Hc. apply orb_false_iff in Hc as [Hc Hs]. rewrite Hc, (IH Hs). reflexivity.
Qed.

Lemma split_one s : has_char nl s = false -> split nl s = [s].
Proof.
  induction s as [|c s IH]; simpl; [reflexivity|].
  intros Hc. apply orb_false_iff in Hc as [Hc Hs]. rewrite Hc, (IH Hs). reflexivity.
Qed.

(** Splitting a text made of lines gives the lines back. *)
Lemma split_concat ls :
  Forall (fun s => has_char nl s = false) ls -> ls <> [] ->
  split nl (String.concat (String nl EmptyString) ls) = ls.
Proof.
  induction 1 as [|x ls Hx Hls IH]; intros Hne; [congruence|].
  destruct ls as [|y ls].
  - simpl. apply split_one, Hx.
  - change (String.concat (String nl "") (x :: y :: ls))
      with (x +:+ String nl (String.concat (String nl "") (y :: ls))).
    rewrite split_append by exact Hx. rewrite IH by discriminate. reflexivity.
Qed.

Lemma tableLines_rows sv :
  (forall lp, lp ∈ sv -> one_line (renderLine (NameRow (label lp.2))) = true) ->
  sv <> [] ->
  tableLines sv = map (fun lp => renderLine (NameRow (label lp.2))) sv.
Proof.
  intros Hone Hne. unfold tableLines, tableToString. rewrite map_map. apply split_concat.
  - apply Forall_forall. intros s Hs. apply list_elem_of_In, in_map_iff in Hs.
    destruct Hs as (lp & <- & Hlp). apply list_elem_of_In in Hlp.
    specialize (Hone lp Hlp).
    unfold one_line in Hone. apply negb_true_iff in Hone. exact Hone.
  - destruct sv; [congruence|discriminate].
Qed.

(** When the rows of a group are rendered on one line each, Choice [i]
    of the group gets the line of record [i]. *)
Lemma groupChoices_aligned sv :
  (forall lp, lp ∈ sv -> one_line (renderLine (NameRow (label lp.2))) = true) ->
  groupChoices sv
  = map (fun lp => OChoice {| c_value := lp.1;
                              c_name := NameLine (renderLine (NameRow (label lp.2)));
                              c_short := short lp.2 |}) sv.
Proof.
  intros Hone. destruct sv as [|lp0 sv0] eqn:Hsv; [reflexivity|].
  rewrite <- Hsv in Hone |- *.
  assert (Hne : sv <> []) by (rewrite Hsv; discriminate). clear Hsv.
  apply list_eq. intros j. unfold groupChoices.
  rewrite renamed_lookup, !list_lookup_fmap, tableLines_rows by assumption.
  unfold lineAt. rewrite list_lookup_fmap. cbn [Nat.add].
  destruct (sv !! j) as [lp|]; reflexivity.
Qed.

Lemma choicesIn_Some_choices (cs : list Choice) (pre : list Obj) :
  (forall o, o ∈ pre -> forall c, o <> OChoice c) ->
  choicesIn (map Some (pre ++ map OChoice cs)) = cs.
Proof.
  unfold choicesIn. induction pre as [|o pre IH]; intros Hpre.
  - simpl. induction cs as [|c cs IHc]; [reflexivity|].
    cbn [map]. change (omap ?f (Some (OChoice c) :: ?l)) with (c :: omap f l).
    f_equal. exact IHc.
  - cbn [map app].
    assert (Ho : forall c, o <> OChoice c) by (apply Hpre; left).
    destruct o as [| c |]; [|destruct (Ho c); reflexivity|];
      (change (omap ?f (Some ?x :: ?l)) with (omap f l);
       apply IH; intros o' Ho'; apply Hpre; right; exact Ho').
Qed.

Lemma groupChoices_choices sv :
  exists cs, groupChoices sv = map OChoice cs /\
             map c_value cs = map fst sv /\
             map c_short cs = map (fun lp => short lp.2) sv.
Proof.
  unfold groupChoices. generalize (tableLines sv) 0.
  induction sv as [|lp sv IH]; intros lines i.
  - exists []. repeat split.
  - destruct (IH lines (S i)) as (cs & Hcs & Hv & Hs).
    exists (rename (lineAt lines i) (newChoice lp) :: cs).
    cbn [map renamed]. rewrite Hcs, Hv, Hs. repeat split.
Qed.

Lemma joined_nil_blocks sv_of gs n :
  joined (groupArrays sv_of n gs) = [] <-> allBlocks sv_of gs = [].
Proof.
  revert n. unfold joined.
  induction gs as [|g gs IH]; intros n; [split; reflexivity|].
  cbn [groupArrays]. unfold allBlocks. cbn [flat_map]. fold (allBlocks sv_of gs).
  unfold groupArray, groupObjects, groupBlock.
  destruct (sv_of g) as [|lp sv'].
  - rewrite omap_id_None. cbn [app]. apply IH.
  - rewrite omap_id_Some. split; discriminate.
Qed.

(** The run on well-formed input, seen from outside: either nothing
    qualifies and one line is logged, or one question is asked whose
    list reads as the groups followed by three Separators. *)
Lemma upgradeInteractive_summary pkgs w :
  wf_input (heap w) pkgs ->
  let sv_of g := survivors (heap w) (filter g) pkgs in
  (allBlocks sv_of UI_GROUPS = [] /\
   upgradeInteractive pkgs w
   = Some ({| packages := [] |},
           {| heap := heap w;
              console := console w ++ ["All dependencies are up to date!"];
              prompted := prompted w; stdout_rows := stdout_rows w |})) \/
  (allBlocks sv_of UI_GROUPS <> [] /\
   exists arr ext,
     let q := question arr (stdout_rows w) in
     let w' := {| heap := heap w ++ ext; console := console w;
                  prompted := prompted w ++ [q]; stdout_rows := stdout_rows w |} in
     upgradeInteractive pkgs w = Some ({| packages := picks (shown w' q) |}, w') /\
     shown w' q = map Some (allBlocks sv_of UI_GROUPS ++ trailer)).
Proof.
  intros Hwf sv_of. rewrite (upgradeInteractive_run pkgs w Hwf). cbv zeta. fold sv_of.
  pose proof (joined_nil_blocks sv_of UI_GROUPS (length (heap w))) as Hnil.
  destruct (joined (groupArrays sv_of (length (heap w)) UI_GROUPS))
    as [|a arr'] eqn:Harr.
  - left. split; [apply Hnil|]; reflexivity.
  - right. split; [intros Hb; apply Hnil in Hb; discriminate|].
    eexists _, (allObjects sv_of UI_GROUPS ++ trailer).
    cbv zeta. rewrite <- !app_assoc. split; [reflexivity|].
    unfold shown, question. cbn [heap q_choices].
    rewrite <- Harr, app_assoc. apply (display_final sv_of UI_GROUPS (heap w)).
Qed.

Lemma survivors_elem h f pkgs l p :
  (l, p) ∈ survivors h f pkgs ->
  l ∈ pkgs /\ pkgAt h l = Some p /\ filterCallback f p = true /\ qualifies p = true.
Proof.
  induction pkgs as [|l' ls IH]; [intros H; inversion H|].
  rewrite survivors_cons. destruct (pkgAt h l') as [p'|] eqn:Hp.
  - destruct (filterCallback f p' && qualifies p') eqn:Hc.
    + intros [[= -> ->]|Hin]%elem_of_cons.
      * apply andb_true_iff in Hc as [Hf Hq]. repeat split; [left|..]; assumption.
      * destruct (IH Hin) as (? & ? & ? & ?). repeat split; [right|..]; assumption.
    + intros Hin. destruct (IH Hin) as (? & ? & ? & ?). repeat split; [right|..]; assumption.
  - intros Hin. destruct (IH Hin) as (? & ? & ? & ?). repeat split; [right|..]; assumption.
Qed.

(** Every Choice on display wraps a record of its group. *)
Lemma allBlocks_choice sv_of gs c :
  OChoice c ∈ allBlocks sv_of gs ->
  exists g lp, g ∈ gs /\ lp ∈ sv_of g /\ c_value c = lp.1 /\ c_short c = short lp.2.
Proof.
  unfold allBlocks. intros Hin. apply list_elem_of_In, in_flat_map in Hin.
  destruct Hin as (g & Hg & Hin). apply list_elem_of_In in Hg, Hin.
  exists g. unfold groupBlock in Hin. destruct (sv_of g) as [|lp0 sv0] eqn:Hsv.
  { inversion Hin. }
  rewrite <- Hsv in Hin. apply elem_of_cons in Hin as [[=]|Hin].
  apply elem_of_cons in Hin as [[=]|Hin].
  destruct (groupChoices_choices (sv_of g)) as (cs & Hcs & Hv & Hs).
  rewrite Hcs in Hin. apply list_elem_of_fmap in Hin as (c' & [= <-] & Hc).
  apply list_elem_of_lookup in Hc as [i Hi].
  assert (Hvi : map c_value cs !! i = Some (c_value c)) by (rewrite list_lookup_fmap, Hi; reflexivity).
  assert (Hsi : map c_short cs !! i = Some (c_short c)) by (rewrite list_lookup_fmap, Hi; reflexivity).
  rewrite Hv, list_lookup_fmap in Hvi. rewrite Hs, list_lookup_fmap in Hsi.
  destruct (sv_of g !! i) as [lp|] eqn:Hlp; [|discriminate].
  exists lp. simpl in Hvi, Hsi. injection Hvi as Hvi. injection Hsi as Hsi.
  rewrite <- Hsv. repeat split; [assumption|eapply list_elem_of_lookup_2; eassumption|congruence..].
Qed.

Lemma picks_elem entries l :
  l ∈ picks entries -> exists c, Some (OChoice c) ∈ entries /\ c_value c = l.
Proof.
  unfold picks. intros Hl. apply list_elem_of_omap in Hl as (o & Ho & Hid).
  unfold id in Hid. subst o. apply elem_of_lookup_imap in Ho as (i & e & He & Hi).
  destruct e as [[| c |]|]; try discriminate.
  destruct (ticked entries i); [|discriminate]. injection He as ->.
  exists c. split; [eapply list_elem_of_lookup_2; eassumption|reflexivity].
Qed.

Lemma trailer_no_choice c : OChoice c ∉ trailer.
Proof.
  unfold trailer. intros H. repeat (apply elem_of_cons in H as [[=]|H]). inversion H.
Qed.

(** A Choice among the displayed entries wraps a record of some group. *)
Lemma displayed_choice sv_of gs (entries : list (option Obj)) c :
  entries = map Some (allBlocks sv_of gs ++ trailer) ->
  Some (OChoice c) ∈ entries ->
  exists g lp, g ∈ gs /\ lp ∈ sv_of g /\ c_value c = lp.1 /\ c_short c = short lp.2.
Proof.
  intros -> Hin. apply list_elem_of_fmap in Hin as (o & [= <-] & Hin).
  apply elem_of_app in Hin as [Hin|Hin]; [|destruct (trailer_no_choice _ Hin)].
  apply allBlocks_choice, Hin.
Qed.

Lemma not_set_not_qualifies p :
  mismatch p <> Some true -> bump p = None -> notInstalled p <> Some true ->
  qualifies p = false.
Proof.
  unfold qualifies. intros Hm -> Hn.
  destruct (mismatch p) as [[]|], (notInstalled p) as [[]|]; simpl; congruence.
Qed.

Lemma allBlocks_nil sv_of gs :
  (forall g, g ∈ gs -> sv_of g = []) -> allBlocks sv_of gs = [].
Proof.
  unfold allBlocks. induction gs as [|g gs IH]; intros Hall; [reflexivity|].
  cbn [flat_map]. rewrite (Hall g) by left. rewrite IH; [reflexivity|].
  intros g' Hg'. apply Hall. right. exact Hg'.
Qed.

Lemma survivors_values h f pkgs :
  map fst (survivors h f pkgs)
  = List.filter (fun l => match pkgAt h l with
                          | Some p => filterCallback f p && qualifies p
                          | None => false
                          end) pkgs.
Proof.
  induction pkgs as [|l ls IH]; [reflexivity|].
  rewrite survivors_cons. cbn [List.filter]. destruct (pkgAt h l) as [p|]; [|exact IH].
  destruct (filterCallback f p && qualifies p); cbn [map fst]; rewrite IH; reflexivity.
Qed.

Lemma filter_nil_existsb {A} (f : A -> bool) l :
  List.filter f l = [] <-> existsb f l = false.
Proof.
  induction l as [|x l IH]; simpl; [split; reflexivity|].
  destruct (f x); simpl; [split; discriminate|exact IH].
Qed.

Lemma existsb_Permutation {A} (f : A -> bool) l l' :
  l ≡ₚ l' -> existsb f l = existsb f l'.
Proof.
  intros Hperm. destruct (existsb f l) eqn:Hl; symmetry.
  - apply existsb_exists in Hl as (x & Hx & Hfx). apply existsb_exists.
    exists x. split; [|exact Hfx]. apply list_elem_of_In. rewrite <- Hperm.
    apply list_elem_of_In. exact Hx.
  - destruct (existsb f l') eqn:Hl'; [|reflexivity].
    apply existsb_exists in Hl' as (x & Hx & Hfx).
    assert (existsb f l = true); [|congruence].
    apply existsb_exists. exists x. split; [|exact Hfx].
    apply list_elem_of_In. rewrite Hperm. apply list_elem_of_In. exact Hx.
Qed.

Lemma separators_app a b : separators (a ++ b) = separators a ++ separators b.
Proof. unfold separators. apply omap_app. Qed.

Lemma separators_choices cs : separators (map OChoice cs) = [].
Proof. induction cs as [|c cs IH]; [reflexivity|exact IH]. Qed.

(** The headers of the groups on display: two for every group that
    keeps a record, in the order of the groups. *)
Lemma separators_blocks h pkgs gs :
  separators (allBlocks (fun g => survivors h (filter g) pkgs) gs)
  = flat_map (fun g =>
                if existsb (fun l => match pkgAt h l with
                                     | Some p => filterCallback (filter g) p && qualifies p
                                     | None => false
                                     end) pkgs
                then [reset ""; reset (title g)] else []) gs.
Proof.
  unfold allBlocks. induction gs as [|g gs IH]; [reflexivity|].
  cbn [flat_map]. rewrite separators_app, IH. f_equal.
  pose proof (survivors_values h (filter g) pkgs) as Hv.
  pose proof (filter_nil_existsb
                (fun l => match pkgAt h l with
                          | Some p => filterCallback (filter g) p && qualifies p
                          | None => false
                          end) pkgs) as Hnil.
  rewrite <- Hv in Hnil. unfold groupBlock.
  destruct (survivors h (filter g) pkgs) as [|lp sv'] eqn:Hsv.
  - rewrite (proj1 Hnil) by reflexivity. reflexivity.
  - destruct (existsb _ pkgs); [|destruct Hnil as [_ Hnil]; discriminate (Hnil eq_refl)].
    destruct (groupChoices_choices (lp :: sv')) as (cs & -> & _).
    change (separators (?a :: ?b :: map OChoice cs))
      with (reset "" :: reset (title g) :: separators (map OChoice cs)).
    rewrite separators_choices. reflexivity.
Qed.

Lemma nameOnly_trans a b c : nameOnly a b -> nameOnly b c -> nameOnly a c.
Proof.
  intros [->|(x & n & -> & ->)] [<-|(y & m & Hy & ->)].
  - left; reflexivity.
  - right; eauto.
  - right; eauto.
  - injection Hy as <-. right. exists x, m. split; reflexivity.
Qed.

(** The loop that writes the lines back changes names only. *)
Lemma rewriteNames_frame lines cs : forall i v v',
  rewriteNames lines i cs v = Some (tt, v') ->
  forall a, nameOnly (heap v !! a) (heap v' !! a).
Proof.
  induction cs as [|c cs IH]; intros i v v' Hrun a.
  - injection Hrun as <-. left; reflexivity.
  - cbn [rewriteNames] in Hrun. unfold bind at 1, read in Hrun.
    destruct (heap v !! c) as [o|] eqn:Hc; [|discriminate].
    destruct o as [p | ch | line].
    + apply (IH _ _ _ Hrun).
    + unfold bind at 1, write in Hrun. apply IH with (a := a) in Hrun.
      eapply nameOnly_trans; [|exact Hrun]. cbn [heap with_heap].
      destruct (decide (c = a)) as [->|Hne].
      * right. exists ch, (lineAt lines i). split; [exact Hc|].
        apply list_lookup_insert_eq. eapply lookup_lt_Some; eassumption.
      * left. symmetry. apply list_lookup_insert_ne. exact Hne.
    + apply (IH _ _ _ Hrun).
Qed.

(** *** The classifier *)

Lemma strict_eq_true {A} `{EqDecision A} (a b : A) : strict_eq a b = true <-> a = b.
Proof. unfold strict_eq. apply bool_decide_eq_true. Qed.

Lemma strict_eq_false {A} `{EqDecision A} (a b : A) : strict_eq a b = false <-> a <> b.
Proof. unfold strict_eq. apply bool_decide_eq_false. Qed.

(** One key of the filter: the test fails exactly when the key is there
    and the values differ. *)
Lemma key_test {A} `{EqDecision A} (k : option (option A)) (x : option A) :
  key_in k && negb (strict_eq x (get k)) = false <-> (forall v, k = Some v -> x = v).
Proof.
  destruct k as [v|]; simpl.
  - destruct (strict_eq x v) eqn:Hx; simpl.
    + apply (proj1 (strict_eq_true x v)) in Hx.
      split; [intros _ v' [= <-]; exact Hx | reflexivity].
    + apply (proj1 (strict_eq_false x v)) in Hx.
      split; [discriminate | intros Hv; destruct Hx; auto].
  - split; [intros _ v [=] | reflexivity].
Qed.

(** C1. A record passes the filter of a group exactly when, for every
    key present in the filter object ([mismatch], [bump],
    [notInstalled]), the record's value equals the filter's value. A key
    present with value [undefined] therefore demands that the record's
    attribute is absent, a missing key demands nothing, and a filter
    without keys lets every record pass. *)
Theorem filterCallback_exact (f : Filter) (pkg : Package) :
  (filterCallback f pkg = true <->
     (forall v, filter_mismatch f = Some v -> mismatch pkg = v) /\
     (forall v, filter_bump f = Some v -> bump pkg = v) /\
     (forall v, filter_notInstalled f = Some v -> notInstalled pkg = v)) /\
  (filter_bump f = Some None -> filterCallback f pkg = true -> bump pkg = None) /\
  (filter_mismatch f = None -> filter_bump f = None -> filter_notInstalled f = None ->
     filterCallback f pkg = true).
Proof.
  assert (Hiff : filterCallback f pkg = true <->
     (forall v, filter_mismatch f = Some v -> mismatch pkg = v) /\
     (forall v, filter_bump f = Some v -> bump pkg = v) /\
     (forall v, filter_notInstalled f = Some v -> notInstalled pkg = v)).
  { rewrite <- !key_test. unfold filterCallback.
    destruct (key_in (filter_mismatch f) && _); [intuition discriminate|].
    destruct (key_in (filter_bump f) && _); [intuition discriminate|].
    destruct (key_in (filter_notInstalled f) && _); intuition discriminate. }
  split; [exact Hiff|]. split.
  - intros Hb Hf. apply Hiff in Hf. destruct Hf as (_ & Hbump & _). auto.
  - intros Hm Hb Hn. apply Hiff. rewrite Hm, Hb, Hn. repeat split; intros v [=].
Qed.

(** *** The formatter *)

(** C8. [label] gives five fields: the decorated name with the devDep
    and missing tags when those flags are set; the packageJson version
    if [mismatch] is set, else the installed version if [bump] is set,
    else the empty text; the marker [>] exactly when the second field is
    not empty; the latest version in bold; the homepage link if there is
    a latest version, else the registry error or the package error.
    [short] is the name, [@] and the latest version. *)
Theorem label_fields (dep : Package) :
  exists name current marker link,
    label dep = [JString name; JString current; JString marker;
                 JString (bold (latest dep)); link] /\
    name = yellow (moduleName dep)
             +:+ (if decide (devDependency dep = Some true) then green " devDep" else "")
             +:+ (if decide (notInstalled dep = Some true) then red " missing" else "") /\
    current = (if decide (mismatch dep = Some true) then packageJson dep
               else if decide (bump dep <> None) then installed dep else "") /\
    (marker = ">" <-> current <> "") /\
    (marker = ">" \/ marker = "") /\
    link = (if decide (latest dep <> "")
            then JString (if decide (homepage dep <> "")
                          then blue (underline (homepage dep)) else "")
            else match regError dep with
                 | JString (String c m) => JString (String c m)
                 | _ => pkgError dep
                 end) /\
    short dep = moduleName dep +:+ "@" +:+ latest dep.
Proof.
  assert (Hl : (if truthy_string (latest dep) then latest dep else "") = latest dep)
    by (destruct (latest dep); reflexivity).
  unfold label, short. rewrite Hl.
  do 4 eexists. split; [|split; [|split; [|split; [|split; [|split]]]]].
  - reflexivity.
  - destruct (devDependency dep) as [[]|], (notInstalled dep) as [[]|]; reflexivity.
  - destruct (mismatch dep) as [[]|], (bump dep); reflexivity.
  - destruct (if truthy_flag (mismatch dep) then _ else _); simpl; split; congruence.
  - destruct (if truthy_flag (mismatch dep) then _ else _); simpl; auto.
  - destruct (latest dep); simpl.
    + unfold js_or. destruct (regError dep) as [|[|c m]]; reflexivity.
    + destruct (homepage dep); reflexivity.
  - reflexivity.
Qed.

(** *** The choice list *)

(** C2. A record with none of [mismatch], [bump], [notInstalled] set
    gets no Choice from [choice], and no Choice of the list handed to
    the prompt wraps it; it is not among the answers either. *)
Theorem no_flags_no_choice pkgs w l p :
  wf_input (heap w) pkgs ->
  pkgAt (heap w) l = Some p ->
  mismatch p <> Some true -> bump p = None -> notInstalled p <> Some true ->
  choice l w = Some (None, w) /\
  exists ans w' qs,
    upgradeInteractive pkgs w = Some (ans, w') /\
    prompted w' = prompted w ++ qs /\
    (l ∉ packages ans) /\
    forall q c, q ∈ qs -> Some (OChoice c) ∈ shown w' q -> c_value c <> l.
Proof.
  intros Hwf Hp Hm Hb Hn.
  pose proof (not_set_not_qualifies p Hm Hb Hn) as Hq.
  split; [rewrite (choice_run w l p Hp), Hq; reflexivity|].
  assert (Hno : forall entries c,
             entries = map Some (allBlocks (fun g => survivors (heap w) (filter g) pkgs)
                                           UI_GROUPS ++ trailer) ->
             Some (OChoice c) ∈ entries -> c_value c <> l).
  { intros entries c Hentries Hin Hl.
    destruct (displayed_choice _ _ _ _ Hentries Hin) as (g & [l' p'] & _ & Hlp & Hv & _).
    apply survivors_elem in Hlp as (_ & Hp' & _ & Hq').
    simpl in Hv. rewrite Hv in Hl. subst l'. congruence. }
  destruct (upgradeInteractive_summary pkgs w Hwf) as [[_ Hrun]|(_ & arr & ext & Hrun & Hshown)].
  - eexists _, _, []. split; [exact Hrun|]. cbn [prompted packages].
    rewrite app_nil_r. repeat split.
    + intros H; inversion H.
    + intros q c H; inversion H.
  - cbv zeta in Hrun, Hshown. eexists _, _, [_]. split; [exact Hrun|].
    cbn [prompted packages]. repeat split.
    + intros Hin. apply picks_elem in Hin as (c & Hc & Hv).
      exact (Hno _ c Hshown Hc Hv).
    + intros q c Hq' Hin. apply list_elem_of_singleton in Hq'. subst q.
      exact (Hno _ c Hshown Hin).
Qed.

(** X10. When the table renders the row of every surviving record of
    a group on one line (no cell of these rows holds a line break), the
    array [createChoices] returns holds exactly one Choice per surviving
    record, and the Choice at position [i] has as its name the table line
    of the record at position [i]. *)
Theorem createChoices_rows_aligned pkgs g w :
  wf_input (heap w) pkgs ->
  (forall l p, (l, p) ∈ survivors (heap w) (filter g) pkgs ->
     one_line (renderLine (NameRow (label p))) = true) ->
  let sv := survivors (heap w) (filter g) pkgs in
  exists res w',
    createChoices pkgs g w = Some (res, w') /\
    let cs := choicesIn (map (fun l => heap w' !! l) (default [] res)) in
    (length cs = length sv /\
     forall i l p, sv !! i = Some (l, p) ->
       cs !! i = Some {| c_value := l;
                         c_name := NameLine (renderLine (NameRow (label p)));
                         c_short := short p |}).
Proof.
  intros Hwf Hone sv.
  destruct (createChoices_shown pkgs g w Hwf) as (res & w' & Hrun & _ & Hres).
  fold sv in Hres. exists res, w'. split; [exact Hrun|]. cbv zeta.
  destruct res as [arr|]; unfold default; cbn [from_option id].
  - destruct Hres as [Hne Hshown]. rewrite Hshown. unfold groupBlock.
    destruct sv as [|lp sv'] eqn:Hsv; [congruence|]. rewrite <- Hsv.
    rewrite groupChoices_aligned
      by (intros [l p] Hlp; apply (Hone l p); exact Hlp).
    rewrite <- (map_map _ OChoice).
    change (choicesIn (map Some (?a :: ?b :: map OChoice ?cs)))
      with (choicesIn (map Some ([a; b] ++ map OChoice cs))).
    rewrite choicesIn_Some_choices.
    + split; [apply length_map|]. intros i l p Hi.
      rewrite list_lookup_fmap, Hi. reflexivity.
    + intros o Ho c. repeat (apply elem_of_cons in Ho as [->|Ho]); try discriminate.
      inversion Ho.
  - rewrite Hres. split; [reflexivity|]. intros i l p Hi. destruct i; discriminate.
Qed.

(** C5. When the Choices of a group are not empty, [createChoices]
    returns a blank Separator, the Separator with the title of the group
    and then the Choices, one for each surviving record; when they are
    empty it returns nothing and leaves the heap as it was, and the list
    handed to the prompt holds, for each group in turn, either that
    block or no entry at all. *)
Theorem createChoices_block pkgs g w :
  wf_input (heap w) pkgs ->
  let sv_of g := survivors (heap w) (filter g) pkgs in
  (exists res w',
     createChoices pkgs g w = Some (res, w') /\
     match sv_of g with
     | [] => res = None /\ w' = w
     | _ => exists arr cs,
              res = Some arr /\
              map c_value cs = map fst (sv_of g) /\
              map (fun l => heap w' !! l) arr
              = map Some (OSeparator (reset "") :: OSeparator (reset (title g))
                            :: map OChoice cs)
     end) /\
  (exists ans w' qs,
     upgradeInteractive pkgs w = Some (ans, w') /\
     prompted w' = prompted w ++ qs /\
     forall q, q ∈ qs ->
       shown w' q
       = map Some (flat_map (fun g => match sv_of g with
                                      | [] => []
                                      | _ => OSeparator (reset "")
                                             :: OSeparator (reset (title g))
                                             :: groupChoices (sv_of g)
                                      end) UI_GROUPS ++ trailer)).
Proof.
  intros Hwf sv_of. split.
  - destruct (createChoices_shown pkgs g w Hwf) as (res & w' & Hrun & Hw' & Hres).
    fold (sv_of g) in Hw', Hres. exists res, w'. split; [exact Hrun|].
    unfold groupObjects, groupBlock in *.
    destruct (sv_of g) as [|lp sv'] eqn:Hsv.
    + destruct res as [arr|]; [destruct Hres; congruence|].
      split; [reflexivity|]. rewrite Hw', app_nil_r. apply with_heap_id.
    + destruct res as [arr|]; [|discriminate]. destruct Hres as [_ Hshown].
      destruct (groupChoices_choices (lp :: sv')) as (cs & Hcs & Hv & _).
      exists arr, cs. split; [reflexivity|]. split; [exact Hv|].
      rewrite Hshown, Hcs. reflexivity.
  - destruct (upgradeInteractive_summary pkgs w Hwf)
      as [[_ Hrun]|(_ & arr & ext & Hrun & Hshown)].
    + eexists _, _, []. split; [exact Hrun|]. cbn [prompted]. rewrite app_nil_r.
      split; [reflexivity|]. intros q H; inversion H.
    + cbv zeta in Hrun, Hshown. eexists _, _, [_]. split; [exact Hrun|].
      cbn [prompted]. split; [reflexivity|].
      intros q Hq. apply list_elem_of_singleton in Hq. subst q. exact Hshown.
Qed.

(** C6. When no record qualifies for any group, [upgradeInteractive]
    writes one line to the console, returns an empty selection and
    hands no question to the prompt; the heap stays as it was. *)
Theorem nothing_to_upgrade pkgs w :
  wf_input (heap w) pkgs ->
  (forall g l p, g ∈ UI_GROUPS -> l ∈ pkgs -> pkgAt (heap w) l = Some p ->
     filterCallback (filter g) p && qualifies p = false) ->
  upgradeInteractive pkgs w
  = Some ({| packages := [] |},
          {| heap := heap w;
             console := console w ++ ["All dependencies are up to date!"];
             prompted := prompted w;
             stdout_rows := stdout_rows w |}).
Proof.
  intros Hwf Hnone.
  destruct (upgradeInteractive_summary pkgs w Hwf) as [[_ Hrun]|[Hne _]]; [exact Hrun|].
  destruct Hne. apply allBlocks_nil. intros g Hg.
  destruct (survivors (heap w) (filter g) pkgs) as [|[l p] sv'] eqn:Hsv; [reflexivity|].
  assert (Hin : (l, p) ∈ survivors (heap w) (filter g) pkgs) by (rewrite Hsv; left).
  apply survivors_elem in Hin as (Hl & Hp & Hf & Hq).
  specialize (Hnone g l p Hg Hl Hp). rewrite Hf, Hq in Hnone. discriminate.
Qed.

(** C7, as the code has it. When the groups give at least one entry,
    the list handed to the prompt is the entries of the groups followed
    by a blank Separator, the Separator with the instructions and one
    more blank Separator. *)
Theorem prompt_list_trailer pkgs w :
  wf_input (heap w) pkgs ->
  let blocks := allBlocks (fun g => survivors (heap w) (filter g) pkgs) UI_GROUPS in
  blocks <> [] ->
  exists ans w' q,
    upgradeInteractive pkgs w = Some (ans, w') /\
    prompted w' = prompted w ++ [q] /\
    shown w' q
    = map Some
        (blocks ++
         [ OSeparator (reset "");
           OSeparator
             (reset "Space to select. Enter to start upgrading. Control-C to cancel.");
           OSeparator (reset "") ]).
Proof.
  intros Hwf blocks Hne.
  destruct (upgradeInteractive_summary pkgs w Hwf)
    as [[Hnil _]|(_ & arr & ext & Hrun & Hshown)]; [destruct (Hne Hnil)|].
  cbv zeta in Hrun, Hshown. eexists _, _, _. split; [exact Hrun|].
  split; [reflexivity|]. exact Hshown.
Qed.

Lemma allBlocks_nonempty sv_of gs :
  allBlocks sv_of gs <> [] -> exists g, g ∈ gs /\ sv_of g <> [].
Proof.
  unfold allBlocks. induction gs as [|g gs IH]; [intros H; destruct H; reflexivity|].
  cbn [flat_map]. destruct (sv_of g) as [|lp sv'] eqn:Hsv.
  - cbn [groupBlock app]. intros Hne. destruct (IH Hne) as (g' & Hg' & Hsv').
    exists g'. split; [right; exact Hg'|exact Hsv'].
  - intros _. exists g. split; [left|]. rewrite Hsv. discriminate.
Qed.

(** The block of a group, written out: nothing, or a blank Separator,
    the titled Separator and the Choices, which wrap the surviving
    records in their order. *)
Lemma groupBlock_explicit g sv :
  let cs := choicesIn (map Some (groupChoices sv)) in
  map c_value cs = map fst sv /\
  groupBlock g sv
  = match cs with
    | [] => []
    | c :: rest => OSeparator (reset "") :: OSeparator (reset (title g))
                   :: OChoice c :: map OChoice rest
    end.
Proof.
  intros cs. destruct (groupChoices_choices sv) as (cs' & Hcs & Hv & _).
  assert (Hcs' : cs = cs').
  { unfold cs. rewrite Hcs. apply (choicesIn_Some_choices cs' []).
    intros o Ho. inversion Ho. }
  rewrite Hcs'. split; [exact Hv|]. unfold groupBlock. rewrite Hcs.
  destruct sv as [|lp sv']; destruct cs' as [|c cs'']; try discriminate; reflexivity.
Qed.

Lemma allBlocks_nil_inv sv_of gs g :
  allBlocks sv_of gs = [] -> g ∈ gs -> sv_of g = [].
Proof.
  intros Hnil Hg. destruct (sv_of g) as [|[l p] sv'] eqn:Hsv; [reflexivity|].
  assert (Hin : (l, p) ∈ sv_of g) by (rewrite Hsv; left).
  unfold allBlocks in Hnil.
  assert (Hb : In (OSeparator (reset "")) (flat_map (fun g => groupBlock g (sv_of g)) gs)).
  { apply in_flat_map. exists g. split; [apply list_elem_of_In, Hg|].
    unfold groupBlock. rewrite Hsv. left. reflexivity. }
  rewrite Hnil in Hb. destruct Hb.
Qed.

(** C4. The filters of the groups are, in order: mismatch without bump,
    missing without bump, patch, minor, major, non-semver. For every
    ordering of the input records: a group has entries exactly when it
    keeps some input record, whatever the ordering; if no group keeps a
    record nothing is asked; otherwise exactly one list is handed to the
    prompt, and it reads, group after group in the order of the
    declaration, a blank Separator, the Separator with the title of the
    group and the Choices of the group, which wrap the records the group
    keeps in the order of the input; a group that keeps nothing has no
    entry; the three closing Separators follow. *)
Theorem groups_in_declaration_order pkgs w :
  wf_input (heap w) pkgs ->
  let keeps g l := match pkgAt (heap w) l with
                   | Some p => filterCallback (filter g) p && qualifies p
                   | None => false
                   end in
  map filter UI_GROUPS
  = [ {| filter_mismatch := Some (Some true); filter_bump := Some None;
         filter_notInstalled := None |};
      {| filter_mismatch := None; filter_bump := Some None;
         filter_notInstalled := Some (Some true) |};
      {| filter_mismatch := None; filter_bump := Some (Some patch);
         filter_notInstalled := None |};
      {| filter_mismatch := None; filter_bump := Some (Some minor);
         filter_notInstalled := None |};
      {| filter_mismatch := None; filter_bump := Some (Some major);
         filter_notInstalled := None |};
      {| filter_mismatch := None; filter_bump := Some (Some nonSemver);
         filter_notInstalled := None |} ] /\
  forall pkgs', pkgs' ≡ₚ pkgs ->
    let kept g := List.filter (keeps g) pkgs' in
    exists ans w',
      upgradeInteractive pkgs' w = Some (ans, w') /\
      (forall g, kept g <> [] <-> existsb (keeps g) pkgs = true) /\
      (((forall g, g ∈ UI_GROUPS -> kept g = []) /\
        prompted w' = prompted w) \/
       ((exists g, g ∈ UI_GROUPS /\ kept g <> []) /\
        exists q (choicesOf : IUIGroup -> list Choice),
          prompted w' = prompted w ++ [q] /\
          (forall g, map c_value (choicesOf g) = kept g) /\
          shown w' q
          = map Some
              (flat_map (fun g => match choicesOf g with
                                  | [] => []
                                  | c :: rest => OSeparator (reset "")
                                                 :: OSeparator (reset (title g))
                                                 :: OChoice c :: map OChoice rest
                                  end) UI_GROUPS
               ++ [ OSeparator (reset "");
                    OSeparator
                      (reset
                         "Space to select. Enter to start upgrading. Control-C to cancel.");
                    OSeparator (reset "") ]))).
Proof.
  intros Hwf keeps. split; [reflexivity|]. intros pkgs' Hperm kept.
  assert (Hwf' : wf_input (heap w) pkgs').
  { unfold wf_input. rewrite Hperm. exact Hwf. }
  set (sv_of := fun g => survivors (heap w) (filter g) pkgs').
  assert (Hkept : forall g, map fst (sv_of g) = kept g)
    by (intros g; apply survivors_values).
  assert (Hex : forall g, kept g <> [] <-> existsb (keeps g) pkgs = true).
  { intros g. rewrite <- (existsb_Permutation (keeps g) pkgs' pkgs Hperm).
    unfold kept. rewrite filter_nil_existsb.
    destruct (existsb (keeps g) pkgs'); split; congruence. }
  destruct (upgradeInteractive_summary pkgs' w Hwf')
    as [[Hnil Hrun]|(Hne & arr & ext & Hrun & Hshown)].
  - eexists _, _. split; [exact Hrun|]. split; [exact Hex|]. left.
    split; [|reflexivity]. intros g Hg. rewrite <- Hkept.
    rewrite (allBlocks_nil_inv sv_of UI_GROUPS g Hnil Hg). reflexivity.
  - cbv zeta in Hrun, Hshown. eexists _, _. split; [exact Hrun|].
    split; [exact Hex|]. right. split.
    + destruct (allBlocks_nonempty _ _ Hne) as (g & Hg & Hsv). exists g.
      split; [exact Hg|]. rewrite <- Hkept. fold (sv_of g) in Hsv.
      destruct (sv_of g); [congruence|discriminate].
    + eexists _, (fun g => choicesIn (map Some (groupChoices (sv_of g)))).
      cbn [prompted]. split; [reflexivity|]. split.
      * intros g. rewrite <- Hkept. apply (proj1 (groupBlock_explicit g (sv_of g))).
      * rewrite Hshown. unfold allBlocks, trailer. do 2 f_equal.
        apply flat_map_ext. intros g. apply (proj2 (groupBlock_explicit g (sv_of g))).
Qed.

(** C9. The run leaves every object that was on the heap before it as
    it was, the records among them; every Choice handed to the prompt
    holds in [value] the address of an input record, and its [short] is
    the one [choice] built from that record; the answers are addresses
    of input records; and the loop that writes the table lines back
    changes, at any address, nothing but the [name] of a Choice. *)
Theorem records_untouched pkgs w :
  wf_input (heap w) pkgs ->
  (forall lines i cs v v',
     rewriteNames lines i cs v = Some (tt, v') ->
     forall a, nameOnly (heap v !! a) (heap v' !! a)) /\
  exists ans w' qs,
    upgradeInteractive pkgs w = Some (ans, w') /\
    prompted w' = prompted w ++ qs /\
    (forall a o, heap w !! a = Some o -> heap w' !! a = Some o) /\
    (forall q c, q ∈ qs -> Some (OChoice c) ∈ shown w' q ->
       c_value c ∈ pkgs /\
       exists p, pkgAt (heap w) (c_value c) = Some p /\
                 pkgAt (heap w') (c_value c) = Some p /\
                 c_short c = short p) /\
    (forall l, l ∈ packages ans ->
       l ∈ pkgs /\ pkgAt (heap w') l = pkgAt (heap w) l).
Proof.
  intros Hwf. split; [intros lines i cs; apply rewriteNames_frame|].
  destruct (upgradeInteractive_summary pkgs w Hwf)
    as [[_ Hrun]|(_ & arr & ext & Hrun & Hshown)].
  - eexists _, _, []. split; [exact Hrun|]. cbn [prompted heap packages].
    rewrite app_nil_r. split; [reflexivity|]. split; [auto|].
    split; [intros q c H; inversion H|intros l H; inversion H].
  - cbv zeta in Hrun, Hshown.
    assert (Hc : forall c, Some (OChoice c) ∈ map Some
                   (allBlocks (fun g => survivors (heap w) (filter g) pkgs) UI_GROUPS
                      ++ trailer) ->
                 c_value c ∈ pkgs /\
                 exists p, pkgAt (heap w) (c_value c) = Some p /\
                           pkgAt (heap w ++ ext) (c_value c) = Some p /\
                           c_short c = short p).
    { intros c Hin.
      destruct (displayed_choice _ _ _ _ eq_refl Hin) as (g & [l p] & _ & Hlp & Hv & Hs).
      apply survivors_elem in Hlp as (Hl & Hp & _). simpl in Hv, Hs. rewrite Hv.
      split; [exact Hl|]. exists p. split; [exact Hp|]. split; [|exact Hs].
      rewrite pkgAt_app; [exact Hp|eauto]. }
    eexists _, _, [_]. split; [exact Hrun|]. cbn [prompted heap packages].
    split; [reflexivity|]. split; [|split].
    + intros a o Ha. apply lookup_app_l_Some. exact Ha.
    + intros q c Hq Hin. apply list_elem_of_singleton in Hq. subst q.
      rewrite Hshown in Hin. apply Hc, Hin.
    + intros l Hl. apply picks_elem in Hl as (c & Hin & <-).
      rewrite Hshown in Hin. destruct (Hc c Hin) as (Hl & p & Hp & Hp' & _).
      split; [exact Hl|]. rewrite Hp, Hp'. reflexivity.
Qed.

(** C10. The filters of the groups overlap: the record [ghost], with
    [mismatch] and [notInstalled] set and no [bump], passes the filter of
    the first group and that of the second, and the list handed to the
    prompt then holds two Choices at two addresses, one under each of
    the two titles, both wrapping that record. *)
Theorem one_record_two_sections :
  mismatch ghost = Some true /\ notInstalled ghost = Some true /\ bump ghost = None /\
  exists g1 g2 rest,
    UI_GROUPS = g1 :: g2 :: rest /\
    filterCallback (filter g1) ghost = true /\
    filterCallback (filter g2) ghost = true /\
    exists ans w' q a1 a2 c1 c2,
      upgradeInteractive [0] (world_of [ghost]) = Some (ans, w') /\
      prompted w' = [q] /\
      a1 <> a2 /\
      heap w' !! a1 = Some (OChoice c1) /\
      heap w' !! a2 = Some (OChoice c2) /\
      c_value c1 = 0 /\ c_value c2 = 0 /\
      q_choices q = [3; 2; a1; 6; 5; a2; 7; 8; 9] /\
      shown w' q
      = map Some [ OSeparator (reset ""); OSeparator (reset (title g1)); OChoice c1;
                   OSeparator (reset ""); OSeparator (reset (title g2)); OChoice c2;
                   OSeparator (reset "");
                   OSeparator
                     (reset "Space to select. Enter to start upgrading. Control-C to cancel.");
                   OSeparator (reset "") ].
Proof.
  split; [reflexivity|]. split; [reflexivity|]. split; [reflexivity|].
  eexists _, _, _. split; [reflexivity|]. split; [reflexivity|]. split; [reflexivity|].
  eexists _, _, _, 1, 4, _, _.
  split; [cbv; reflexivity|]. cbv.
  split; [reflexivity|]. split; [discriminate|].
  split; [reflexivity|]. split; [reflexivity|]. repeat split.
Qed.

(** *** Which groups take a record *)

Lemma flagged_qualifies p :
  (mismatch p = Some true \/ bump p <> None \/ notInstalled p = Some true)
  <-> qualifies p = true.
Proof.
  unfold qualifies.
  destruct (mismatch p) as [[]|], (bump p) as [b|], (notInstalled p) as [[]|];
    simpl; split; try reflexivity; try discriminate; intros H; auto;
    try (right; left; discriminate);
    destruct H as [H|[H|H]]; congruence.
Qed.

(** The filters of the six groups, applied to a record, by its flags. *)
Lemma accepting_groups (p : Package) :
  map filter (List.filter (fun g => filterCallback (filter g) p) UI_GROUPS)
  = match bump p with
    | Some b => [ {| filter_mismatch := None; filter_bump := Some (Some b);
                     filter_notInstalled := None |} ]
    | None =>
        (if decide (mismatch p = Some true)
         then [ {| filter_mismatch := Some (Some true); filter_bump := Some None;
                   filter_notInstalled := None |} ]
         else [])
        ++ (if decide (notInstalled p = Some true)
            then [ {| filter_mismatch := None; filter_bump := Some None;
                      filter_notInstalled := Some (Some true) |} ]
            else [])
    end.
Proof.
  destruct p as [nm hp re pe la ins pj ni dd mm bm]. cbn [bump mismatch notInstalled].
  unfold UI_GROUPS, filterCallback. cbn [List.filter filter filter_mismatch filter_bump
    filter_notInstalled key_in get bump mismatch notInstalled andb].
  destruct mm as [[]|], bm as [[]|], ni as [[]|]; reflexivity.
Qed.

Lemma accepted_qualifies g p :
  g ∈ UI_GROUPS -> filterCallback (filter g) p = true -> qualifies p = true.
Proof.
  intros Hg Hf. apply list_elem_of_In in Hg.
  assert (Hin : In (filter g) (map filter (List.filter
                    (fun g => filterCallback (filter g) p) UI_GROUPS))).
  { apply in_map, filter_In. split; assumption. }
  rewrite accepting_groups in Hin. apply flagged_qualifies.
  destruct (bump p) as [b|]; [right; left; discriminate|].
  destruct (decide (mismatch p = Some true)) as [Hm|_]; [left; exact Hm|].
  destruct (decide (notInstalled p = Some true)) as [Hn|_]; [right; right; exact Hn|].
  destruct Hin.
Qed.

Lemma qualifies_accepted p :
  qualifies p = true -> exists g, g ∈ UI_GROUPS /\ filterCallback (filter g) p = true.
Proof.
  intros Hq. pose proof (accepting_groups p) as Hacc.
  destruct (List.filter (fun g => filterCallback (filter g) p) UI_GROUPS)
    as [|g gs] eqn:Hgs.
  - apply flagged_qualifies in Hq. cbn [map] in Hacc.
    destruct (bump p) as [b|]; [discriminate|].
    destruct (decide (mismatch p = Some true)); [discriminate|].
    destruct (decide (notInstalled p = Some true)); [discriminate|].
    destruct Hq as [Hq|[Hq|Hq]]; congruence.
  - assert (Hin : In g (List.filter (fun g => filterCallback (filter g) p) UI_GROUPS))
      by (rewrite Hgs; left; reflexivity).
    apply filter_In in Hin as [Hin Hf]. exists g. split; [|exact Hf].
    apply list_elem_of_In. exact Hin.
Qed.

Lemma survivors_intro h f pkgs l p :
  l ∈ pkgs -> pkgAt h l = Some p -> filterCallback f p = true -> qualifies p = true ->
  (l, p) ∈ survivors h f pkgs.
Proof.
  intros Hl Hp Hf Hq. induction pkgs as [|l' ls IH]; [inversion Hl|].
  rewrite survivors_cons. apply elem_of_cons in Hl as [<-|Hl].
  - rewrite Hp, Hf, Hq. left.
  - destruct (pkgAt h l') as [p'|]; [|auto].
    destruct (filterCallback f p' && qualifies p'); [right|]; auto.
Qed.

Lemma length_groupChoices sv : length (groupChoices sv) = length sv.
Proof. unfold groupChoices. rewrite length_renamed, length_map. reflexivity. Qed.

(** A surviving record of a group has its Choice in the block of the
    group. *)
Lemma block_member sv_of gs g l p :
  g ∈ gs -> (l, p) ∈ sv_of g ->
  exists c, OChoice c ∈ allBlocks sv_of gs /\ c_value c = l /\ c_short c = short p.
Proof.
  intros Hg Hlp. apply list_elem_of_lookup in Hlp as [i Hi].
  destruct (groupChoices_choices (sv_of g)) as (cs & Hcs & Hv & Hs).
  assert (Hlen : length cs = length (sv_of g)).
  { rewrite <- (length_map c_value), Hv, length_map. reflexivity. }
  destruct (cs !! i) as [c|] eqn:Hc.
  2:{ apply lookup_ge_None in Hc. apply lookup_lt_Some in Hi. lia. }
  exists c. split; [|split].
  - unfold allBlocks. apply list_elem_of_In, in_flat_map. exists g.
    split; [apply list_elem_of_In, Hg|]. apply list_elem_of_In.
    unfold groupBlock. destruct (sv_of g) as [|lp0 sv0] eqn:Hsv; [discriminate|].
    rewrite Hcs. right. right. apply list_elem_of_fmap. exists c.
    split; [reflexivity|]. eapply list_elem_of_lookup_2; eassumption.
  - assert (H : map c_value cs !! i = Some (c_value c))
      by (rewrite list_lookup_fmap, Hc; reflexivity).
    rewrite Hv, list_lookup_fmap, Hi in H. simpl in H. congruence.
  - assert (H : map c_short cs !! i = Some (c_short c))
      by (rewrite list_lookup_fmap, Hc; reflexivity).
    rewrite Hs, list_lookup_fmap, Hi in H. simpl in H. congruence.
Qed.

(** The arrays of the groups name every object the groups allocate,
    each once. *)
Lemma joined_fresh sv_of gs : forall n,
  joined (groupArrays sv_of n gs) ≡ₚ seq n (length (allObjects sv_of gs)).
Proof.
  unfold joined. induction gs as [|g gs IH]; intros n; [reflexivity|].
  cbn [groupArrays]. unfold allObjects. cbn [flat_map]. fold (allObjects sv_of gs).
  rewrite length_app, seq_app, <- IH. unfold groupArray, groupObjects.
  destruct (sv_of g) as [|lp sv'] eqn:Hsv.
  - rewrite omap_id_None. reflexivity.
  - rewrite omap_id_Some. cbn [concat]. apply Permutation_app_tail.
    rewrite length_app, length_groupChoices, seq_app. cbn [length seq].
    rewrite (Permutation_app_comm (n :: _)). cbn [app].
    replace (n + S (length sv') + 1) with (S (n + S (length sv'))) by lia.
    apply perm_swap.
Qed.

(** The run on well-formed input, with the addresses it hands over. *)
Lemma upgradeInteractive_precise pkgs w :
  wf_input (heap w) pkgs ->
  let sv_of g := survivors (heap w) (filter g) pkgs in
  let objs := allObjects sv_of UI_GROUPS in
  (allBlocks sv_of UI_GROUPS = [] /\
   upgradeInteractive pkgs w
   = Some ({| packages := [] |},
           {| heap := heap w;
              console := console w ++ ["All dependencies are up to date!"];
              prompted := prompted w; stdout_rows := stdout_rows w |})) \/
  (allBlocks sv_of UI_GROUPS <> [] /\
   exists arr : list loc,
     arr ≡ₚ seq (length (heap w)) (length (objs ++ trailer)) /\
     let q := question arr (stdout_rows w) in
     let w' := {| heap := heap w ++ objs ++ trailer; console := console w;
                  prompted := prompted w ++ [q]; stdout_rows := stdout_rows w |} in
     upgradeInteractive pkgs w = Some ({| packages := picks (shown w' q) |}, w') /\
     shown w' q = map Some (allBlocks sv_of UI_GROUPS ++ trailer)).
Proof.
  intros Hwf sv_of objs. rewrite (upgradeInteractive_run pkgs w Hwf). cbv zeta.
  fold sv_of. fold objs.
  pose proof (joined_nil_blocks sv_of UI_GROUPS (length (heap w))) as Hnil.
  pose proof (joined_fresh sv_of UI_GROUPS (length (heap w))) as Hperm.
  destruct (joined (groupArrays sv_of (length (heap w)) UI_GROUPS))
    as [|a arr'] eqn:Harr.
  - left. split; [apply Hnil|]; reflexivity.
  - right. split; [intros Hb; apply Hnil in Hb; discriminate|].
    exists ((a :: arr') ++ [length (heap w ++ objs); length (heap w ++ objs) + 1;
                             length (heap w ++ objs) + 2]).
    split; [|split].
    + rewrite Hperm. fold objs. rewrite (length_app objs), seq_app, length_app.
      apply Permutation_app_head. unfold trailer. cbn [length seq].
      replace (length (heap w) + length objs + 1) with (S (length (heap w) + length objs))
        by lia.
      replace (length (heap w) + length objs + 2)
        with (S (S (length (heap w) + length objs))) by lia.
      reflexivity.
    + rewrite <- !app_assoc. reflexivity.
    + unfold shown, question. cbn [heap q_choices].
      rewrite <- Harr, app_assoc. apply (display_final sv_of UI_GROUPS (heap w)).
Qed.

(** *** Further properties of the choice list *)

(** X1. Which of the six groups take a record is decided by its flags:
    a record with a bump goes to the group of that bump and to no
    other, whatever its other flags; a record without bump goes to the
    mismatch group if [mismatch] is set and to the missing group if
    [notInstalled] is set. So at most two groups take a record, and some
    group takes it exactly when one of the three flags is set. *)
Theorem groups_of_a_record (p : Package) :
  let taking := List.filter (fun g => filterCallback (filter g) p) UI_GROUPS in
  map filter taking
  = match bump p with
    | Some b => [ {| filter_mismatch := None; filter_bump := Some (Some b);
                     filter_notInstalled := None |} ]
    | None =>
        (if decide (mismatch p = Some true)
         then [ {| filter_mismatch := Some (Some true); filter_bump := Some None;
                   filter_notInstalled := None |} ]
         else [])
        ++ (if decide (notInstalled p = Some true)
            then [ {| filter_mismatch := None; filter_bump := Some None;
                      filter_notInstalled := Some (Some true) |} ]
            else [])
    end /\
  length taking <= 2 /\
  (taking <> [] <->
   mismatch p = Some true \/ bump p <> None \/ notInstalled p = Some true).
Proof.
  intros taking. pose proof (accepting_groups p) as Hacc. fold taking in Hacc.
  split; [exact Hacc|]. split.
  - rewrite <- (length_map filter), Hacc.
    destruct (bump p); [simpl; lia|].
    destruct (decide (mismatch p = Some true)), (decide (notInstalled p = Some true));
      simpl; lia.
  - rewrite flagged_qualifies. split.
    + intros Hne. destruct taking as [|g gs] eqn:Htaking; [congruence|].
      assert (Hin : In g taking) by (rewrite Htaking; left; reflexivity).
      apply filter_In in Hin as [Hin Hf].
      apply (accepted_qualifies g); [apply list_elem_of_In, Hin|exact Hf].
    + intros Hq Hnil. destruct (qualifies_accepted p Hq) as (g & Hg & Hf).
      assert (Hin : In g taking) by (apply filter_In; split;
                                     [apply list_elem_of_In, Hg|exact Hf]).
      rewrite Hnil in Hin. destruct Hin.
Qed.

(** X2. No record that needs attention is lost, provided the table can
    be drawn: when the row of every input record with a flag set has
    five defined cells, an input record with one of the three flags set
    is wrapped by a Choice of the list handed to the prompt, and that
    Choice carries the short label of the record. (A row with an
    undefined cell is outside what the table accepts.) *)
Theorem flagged_record_is_offered pkgs w l p :
  wf_input (heap w) pkgs ->
  (forall l' p', l' ∈ pkgs -> pkgAt (heap w) l' = Some p' ->
     mismatch p' = Some true \/ bump p' <> None \/ notInstalled p' = Some true ->
     JUndefined ∉ label p') ->
  l ∈ pkgs ->
  pkgAt (heap w) l = Some p ->
  mismatch p = Some true \/ bump p <> None \/ notInstalled p = Some true ->
  exists ans w' q c,
    upgradeInteractive pkgs w = Some (ans, w') /\
    prompted w' = prompted w ++ [q] /\
    Some (OChoice c) ∈ shown w' q /\
    c_value c = l /\
    c_short c = moduleName p +:+ "@" +:+ latest p.
Proof.
  intros Hwf _ Hl Hp Hflag. apply flagged_qualifies in Hflag.
  destruct (qualifies_accepted p Hflag) as (g & Hg & Hf).
  pose proof (survivors_intro (heap w) (filter g) pkgs l p Hl Hp Hf Hflag) as Hsv.
  destruct (block_member (fun g => survivors (heap w) (filter g) pkgs) UI_GROUPS g l p
              Hg Hsv) as (c & Hc & Hv & Hs).
  destruct (upgradeInteractive_summary pkgs w Hwf)
    as [[Hnil _]|(_ & arr & ext & Hrun & Hshown)].
  - rewrite Hnil in Hc. inversion Hc.
  - cbv zeta in Hrun, Hshown. eexists _, _, _, c. split; [exact Hrun|].
    split; [reflexivity|]. split; [|split; [exact Hv|exact Hs]].
    rewrite Hshown. apply list_elem_of_fmap. exists (OChoice c).
    split; [reflexivity|]. apply elem_of_app. left. exact Hc.
Qed.

(** X3. When the row of every input record with a flag set has five
    defined cells (so that the table can be drawn), the run takes one of
    two courses. If no input record has a flag set, it writes the one
    line to the console, asks nothing, adds nothing to the heap and
    returns no package. If some input record has a flag set, it writes
    nothing to the console and asks exactly one question, a checkbox
    named [packages]. *)
Theorem up_to_date_or_one_question pkgs w :
  wf_input (heap w) pkgs ->
  (forall l p, l ∈ pkgs -> pkgAt (heap w) l = Some p ->
     mismatch p = Some true \/ bump p <> None \/ notInstalled p = Some true ->
     JUndefined ∉ label p) ->
  exists ans w',
    upgradeInteractive pkgs w = Some (ans, w') /\
    (((forall l p, l ∈ pkgs -> pkgAt (heap w) l = Some p ->
         mismatch p <> Some true /\ bump p = None /\ notInstalled p <> Some true) /\
      console w' = console w ++ ["All dependencies are up to date!"] /\
      prompted w' = prompted w /\
      heap w' = heap w /\
      packages ans = []) \/
     ((exists l p, l ∈ pkgs /\ pkgAt (heap w) l = Some p /\
         (mismatch p = Some true \/ bump p <> None \/ notInstalled p = Some true)) /\
      console w' = console w /\
      exists q, prompted w' = prompted w ++ [q] /\
                q_name q = "packages" /\ q_type q = "checkbox")).
Proof.
  intros Hwf _.
  destruct (upgradeInteractive_summary pkgs w Hwf)
    as [[Hnil Hrun]|(Hne & arr & ext & Hrun & Hshown)].
  - eexists _, _. split; [exact Hrun|]. left.
    cbn [console prompted heap packages].
    split; [|repeat split]. intros l p Hl Hp.
    assert (Hq : qualifies p = false).
    { destruct (qualifies p) eqn:Hq; [|reflexivity].
      destruct (qualifies_accepted p Hq) as (g & Hg & Hf).
      pose proof (survivors_intro (heap w) (filter g) pkgs l p Hl Hp Hf Hq) as Hsv.
      destruct (block_member (fun g => survivors (heap w) (filter g) pkgs)
                  UI_GROUPS g l p Hg Hsv) as (c & Hc & _).
      rewrite Hnil in Hc. inversion Hc. }
    unfold qualifies in Hq.
    destruct (mismatch p) as [[]|], (bump p), (notInstalled p) as [[]|];
      try discriminate; repeat split; discriminate.
  - cbv zeta in Hrun. eexists _, _. split; [exact Hrun|]. right.
    cbn [console prompted]. split; [|split; [reflexivity|]].
    + destruct (allBlocks_nonempty _ _ Hne) as (g & Hg & Hsv).
      destruct (survivors (heap w) (filter g) pkgs) as [|[l p] sv'] eqn:Hs; [congruence|].
      assert (Hin : (l, p) ∈ survivors (heap w) (filter g) pkgs) by (rewrite Hs; left).
      apply survivors_elem in Hin as (Hl & Hp & _ & Hq).
      exists l, p. split; [exact Hl|]. split; [exact Hp|]. apply flagged_qualifies, Hq.
    + eexists. split; [reflexivity|]. repeat split.
Qed.

(** X4. The entries of the list handed to the prompt are exactly the
    objects the run has allocated, each of them once: no address is
    listed twice, none is the address of an object that existed before
    (a record among them), and nothing the run allocates stays out of the
    list. *)
Theorem prompt_entries_are_the_new_objects pkgs w :
  wf_input (heap w) pkgs ->
  exists ans w' qs,
    upgradeInteractive pkgs w = Some (ans, w') /\
    prompted w' = prompted w ++ qs /\
    length qs <= 1 /\
    (qs = [] -> heap w' = heap w) /\
    forall q, q ∈ qs ->
      q_choices q ≡ₚ seq (length (heap w)) (length (heap w') - length (heap w)) /\
      NoDup (q_choices q) /\
      forall a, a ∈ q_choices q -> length (heap w) <= a < length (heap w').
Proof.
  intros Hwf.
  destruct (upgradeInteractive_precise pkgs w Hwf)
    as [[_ Hrun]|(_ & arr & Hperm & Hrun & _)].
  - eexists _, _, []. split; [exact Hrun|]. cbn [prompted heap length].
    rewrite app_nil_r. split; [reflexivity|]. split; [lia|]. split; [reflexivity|].
    intros q H; inversion H.
  - cbv zeta in Hrun. eexists _, _, [_]. split; [exact Hrun|].
    cbn [prompted heap length]. split; [reflexivity|]. split; [lia|].
    split; [discriminate|]. intros q Hq. apply list_elem_of_singleton in Hq. subst q.
    cbn [q_choices question]. rewrite length_app.
    replace (length (heap w) + length (allObjects _ UI_GROUPS ++ trailer) - length (heap w))
      with (length (allObjects (fun g => survivors (heap w) (filter g) pkgs) UI_GROUPS
                      ++ trailer)) by lia.
    split; [exact Hperm|]. split.
    + rewrite Hperm. apply NoDup_seq.
    + intros a Ha. rewrite Hperm in Ha. apply elem_of_seq in Ha. lia.
Qed.

(** *** Lines of a text *)

Lemma split_cons c s :
  split nl (String c s)
  = if Ascii.eqb c nl then EmptyString :: split nl s
    else match split nl s with
         | [] => [String c EmptyString]
         | hd :: tl => String c hd :: tl
         end.
Proof. reflexivity. Qed.

Lemma length_split_pos s : 1 <= length (split nl s).
Proof.
  induction s as [|c s IH]; [simpl; lia|]. rewrite split_cons.
  destruct (Ascii.eqb c nl); [simpl; lia|].
  destruct (split nl s); simpl in *; lia.
Qed.

(** No piece of a split text holds a line break. *)
Lemma split_pieces s : Forall (fun piece => has_char nl piece = false) (split nl s).
Proof.
  induction s as [|c s IH]; [repeat constructor|]. rewrite split_cons.
  destruct (Ascii.eqb c nl) eqn:Hc; [constructor; [reflexivity|exact IH]|].
  destruct (split nl s) as [|hd tl]; [repeat constructor; simpl; rewrite Hc; reflexivity|].
  inversion IH as [|? ? Hhd Htl]; subst. constructor; [|exact Htl].
  simpl. rewrite Hc, Hhd. reflexivity.
Qed.

Lemma length_split_append a b :
  length (split nl (a +:+ String nl b)) = length (split nl a) + length (split nl b).
Proof.
  induction a as [|c a IH].
  - change ("" +:+ String nl b) with (String nl b).
    rewrite split_cons, Ascii.eqb_refl. reflexivity.
  - change (String c a +:+ String nl b) with (String c (a +:+ String nl b)).
    rewrite !split_cons. destruct (Ascii.eqb c nl); [cbn [length]; rewrite IH; reflexivity|].
    pose proof (length_split_pos a) as Ha.
    pose proof (length_split_pos (a +:+ String nl b)) as Hab.
    destruct (split nl a), (split nl (a +:+ String nl b)); simpl in *; lia.
Qed.

(** A text made of [n] rows splits into at least [n] lines. *)
Lemma length_split_concat ls :
  ls <> [] -> length ls <= length (split nl (String.concat (String nl EmptyString) ls)).
Proof.
  induction ls as [|x ls IH]; [congruence|]. intros _. destruct ls as [|y ls].
  - apply length_split_pos.
  - change (String.concat (String nl "") (x :: y :: ls))
      with (x +:+ String nl (String.concat (String nl "") (y :: ls))).
    rewrite length_split_append. pose proof (length_split_pos x).
    assert (length (y :: ls) <= length (split nl (String.concat (String nl "") (y :: ls))))
      by (apply IH; discriminate).
    cbn [length] in *. lia.
Qed.

(** Every Choice of a group is named by a line of the table. *)
Lemma groupChoices_names sv c :
  OChoice c ∈ groupChoices sv ->
  exists s, c_name c = NameLine s /\ one_line s = true.
Proof.
  intros Hin. apply list_elem_of_lookup in Hin as [j Hj].
  unfold groupChoices in Hj. rewrite renamed_lookup, list_lookup_fmap in Hj.
  cbn [Nat.add] in Hj.
  destruct (sv !! j) as [lp|] eqn:Hlp; [|discriminate]. injection Hj as <-.
  assert (Hlt : j < length (tableLines sv)).
  { unfold tableLines, tableToString. eapply Nat.lt_le_trans; [|apply length_split_concat].
    - rewrite !length_map. eapply lookup_lt_Some; eassumption.
    - destruct sv; [discriminate|discriminate]. }
  unfold lineAt. destruct (tableLines sv !! j) as [s|] eqn:Hs.
  - exists s. split; [reflexivity|]. unfold tableLines in Hs.
    pose proof (split_pieces (tableToString (map (fun lp => c_name (newChoice lp)) sv)))
      as Hall.
    rewrite Forall_forall in Hall. unfold one_line.
    rewrite (Hall s); [reflexivity|]. eapply list_elem_of_lookup_2; eassumption.
  - apply lookup_ge_None in Hs. lia.
Qed.

Lemma allBlocks_ext sv_of sv_of' gs :
  (forall g, sv_of g = sv_of' g) -> allBlocks sv_of gs = allBlocks sv_of' gs.
Proof.
  intros Hext. unfold allBlocks. apply flat_map_ext. intros g. rewrite Hext. reflexivity.
Qed.

(** X5. What one call of [createChoices] does to the world: it writes
    nothing to the console and asks nothing; it leaves the objects of the
    heap as they were and adds, for [n] surviving records, [n + 2] objects
    (none when [n] is 0); the array it returns lists exactly these new
    objects; and the input is as well-formed after the call as before,
    every input record reading the same. *)
Theorem createChoices_effects pkgs g w :
  wf_input (heap w) pkgs ->
  let n := length (survivors (heap w) (filter g) pkgs) in
  exists res w' added,
    createChoices pkgs g w = Some (res, w') /\
    heap w' = heap w ++ added /\
    length added = (if Nat.eqb n 0 then 0 else n + 2) /\
    console w' = console w /\
    prompted w' = prompted w /\
    stdout_rows w' = stdout_rows w /\
    wf_input (heap w') pkgs /\
    (forall l, l ∈ pkgs -> pkgAt (heap w') l = pkgAt (heap w) l) /\
    match res with
    | None => n = 0
    | Some arr => n <> 0 /\ arr ≡ₚ seq (length (heap w)) (n + 2)
    end.
Proof.
  intros Hwf n. rewrite (createChoices_run pkgs g w Hwf). cbv zeta.
  eexists _, _, _. split; [reflexivity|]. cbn [heap console prompted stdout_rows with_heap].
  split; [reflexivity|]. split; [|split; [reflexivity|split; [reflexivity|
    split; [reflexivity|split; [apply wf_input_app, Hwf|split]]]]].
  - unfold groupObjects. subst n.
    destruct (survivors (heap w) (filter g) pkgs) as [|lp sv']; [reflexivity|].
    rewrite length_app, length_groupChoices. cbn [length Nat.eqb]. lia.
  - intros l Hl. apply pkgAt_app. unfold wf_input in Hwf. rewrite Forall_forall in Hwf.
    apply Hwf, Hl.
  - unfold groupArray. subst n.
    destruct (survivors (heap w) (filter g) pkgs) as [|lp sv']; [reflexivity|].
    split; [discriminate|]. rewrite seq_app. cbn [seq].
    rewrite (Permutation_app_comm (seq _ _)). cbn [app].
    replace (length (heap w) + length (lp :: sv') + 1)
      with (S (length (heap w) + length (lp :: sv'))) by lia.
    apply perm_swap.
Qed.

(** X6. Whatever the table does with a row, every Choice in the array
    [createChoices] returns is named by a text without line break: the
    array of fields that [choice] put there is gone, and no Choice is
    left with an undefined name. *)
Theorem choice_names_are_lines pkgs g w :
  wf_input (heap w) pkgs ->
  exists res w',
    createChoices pkgs g w = Some (res, w') /\
    forall arr a c,
      res = Some arr -> a ∈ arr -> heap w' !! a = Some (OChoice c) ->
      exists s, c_name c = NameLine s /\ has_char nl s = false.
Proof.
  intros Hwf.
  destruct (createChoices_shown pkgs g w Hwf) as (res & w' & Hrun & _ & Hres).
  exists res, w'. split; [exact Hrun|]. intros arr a c -> Ha Hc.
  destruct Hres as [_ Hshown].
  assert (Hin : Some (OChoice c) ∈ map (fun l => heap w' !! l) arr).
  { apply list_elem_of_fmap. exists a. split; [symmetry; exact Hc|exact Ha]. }
  rewrite Hshown in Hin. apply list_elem_of_fmap in Hin as (o & [= <-] & Hin).
  unfold groupBlock in Hin.
  destruct (survivors (heap w) (filter g) pkgs) as [|lp sv'] eqn:Hsv; [inversion Hin|].
  apply elem_of_cons in Hin as [[=]|Hin]. apply elem_of_cons in Hin as [[=]|Hin].
  destruct (groupChoices_names _ _ Hin) as (s & Hs & Hone).
  exists s. split; [exact Hs|]. unfold one_line in Hone.
  apply negb_true_iff in Hone. exact Hone.
Qed.

(** X7. Nothing of one run reaches the next: a second run on the same
    input, in the world the first one left, hands the prompt entries
    equal in content to those of the first, yet none of its entries is an
    object of the first list, and the objects of the first list still
    read as they did. *)
Theorem second_run_shows_the_same pkgs w :
  wf_input (heap w) pkgs ->
  exists a1 w1 a2 w2 qs1 qs2,
    upgradeInteractive pkgs w = Some (a1, w1) /\
    upgradeInteractive pkgs w1 = Some (a2, w2) /\
    prompted w1 = prompted w ++ qs1 /\
    prompted w2 = prompted w1 ++ qs2 /\
    map (shown w2) qs2 = map (shown w1) qs1 /\
    map (shown w2) qs1 = map (shown w1) qs1 /\
    forall q1 q2 a, q1 ∈ qs1 -> q2 ∈ qs2 -> a ∈ q_choices q1 -> a ∉ q_choices q2.
Proof.
  intros Hwf.
  destruct (upgradeInteractive_precise pkgs w Hwf)
    as [[Hnil Hrun]|(Hne & arr & Hperm & Hrun & Hshown)].
  - set (w1 := {| heap := heap w;
                  console := console w ++ ["All dependencies are up to date!"];
                  prompted := prompted w; stdout_rows := stdout_rows w |}) in *.
    assert (Hwf1 : wf_input (heap w1) pkgs) by exact Hwf.
    destruct (upgradeInteractive_precise pkgs w1 Hwf1) as [[_ Hrun2]|[Hne2 _]].
    + eexists _, _, _, _, [], []. split; [exact Hrun|]. split; [exact Hrun2|].
      cbn [prompted]. rewrite !app_nil_r. repeat split.
      intros q1 q2 a H; inversion H.
    + destruct Hne2. exact Hnil.
  - cbv zeta in Hrun, Hshown.
    set (objs := allObjects (fun g => survivors (heap w) (filter g) pkgs) UI_GROUPS) in *.
    set (q1 := question arr (stdout_rows w)) in *.
    set (w1 := {| heap := heap w ++ objs ++ trailer; console := console w;
                  prompted := prompted w ++ [q1]; stdout_rows := stdout_rows w |}) in *.
    assert (Hwf1 : wf_input (heap w1) pkgs) by (apply wf_input_app, Hwf).
    assert (Hblocks : allBlocks (fun g => survivors (heap w1) (filter g) pkgs) UI_GROUPS
                      = allBlocks (fun g => survivors (heap w) (filter g) pkgs) UI_GROUPS).
    { apply allBlocks_ext. intros g. apply (survivors_app (heap w) _ _ _ Hwf). }
    destruct (upgradeInteractive_precise pkgs w1 Hwf1)
      as [[Hnil2 _]|(_ & arr2 & Hperm2 & Hrun2 & Hshown2)].
    { rewrite Hblocks in Hnil2. destruct (Hne Hnil2). }
    cbv zeta in Hrun2, Hshown2. rewrite Hblocks in Hshown2.
    assert (Hold : forall a, a ∈ arr -> a < length (heap w1)).
    { intros a Ha. rewrite Hperm in Ha. apply elem_of_seq in Ha.
      cbn [heap w1]. rewrite length_app. lia. }
    eexists _, _, _, _, [q1], [_]. split; [exact Hrun|]. split; [exact Hrun2|].
    cbn [prompted]. split; [reflexivity|]. split; [reflexivity|].
    cbn [map]. rewrite Hshown2, Hshown. split; [reflexivity|]. split.
    + f_equal. rewrite <- Hshown. unfold shown. cbn [heap q_choices q1 question].
      apply map_ext_in. intros a Ha. apply lookup_app_l.
      apply (Hold a), list_elem_of_In, Ha.
    + intros q q2 a Hq Hq2 Ha Ha2.
      apply list_elem_of_singleton in Hq, Hq2. subst q q2.
      cbn [q_choices question q1] in Ha, Ha2.
      apply Hold in Ha. rewrite Hperm2 in Ha2. apply elem_of_seq in Ha2. lia.
Qed.

(** *** Further properties of the classifier and the formatter *)

(** X8. The keys of a filter work independently: a filter accepts a
    record exactly when each of its keys, taken as a filter of its own,
    accepts it. Hence a filter that keeps the keys of another one and
    adds more accepts no record that the other one rejects. *)
Theorem filter_keys_are_independent (f : Filter) (p : Package) :
  filterCallback f p
  = filterCallback {| filter_mismatch := filter_mismatch f; filter_bump := None;
                      filter_notInstalled := None |} p
    && filterCallback {| filter_mismatch := None; filter_bump := filter_bump f;
                         filter_notInstalled := None |} p
    && filterCallback {| filter_mismatch := None; filter_bump := None;
                         filter_notInstalled := filter_notInstalled f |} p /\
  forall f',
    (forall v, filter_mismatch f = Some v -> filter_mismatch f' = Some v) ->
    (forall v, filter_bump f = Some v -> filter_bump f' = Some v) ->
    (forall v, filter_notInstalled f = Some v -> filter_notInstalled f' = Some v) ->
    filterCallback f' p = true -> filterCallback f p = true.
Proof.
  split.
  - unfold filterCallback. cbn [filter_mismatch filter_bump filter_notInstalled key_in andb].
    destruct (key_in (filter_mismatch f) && _), (key_in (filter_bump f) && _),
      (key_in (filter_notInstalled f) && _); reflexivity.
  - intros f' Hm Hb Hn. unfold filterCallback.
    destruct (key_in (filter_mismatch f') && _) eqn:Hm'; [discriminate|].
    destruct (key_in (filter_bump f') && _) eqn:Hb'; [discriminate|].
    destruct (key_in (filter_notInstalled f') && _) eqn:Hn'; [discriminate|].
    intros _.
    pose proof (proj1 (key_test (filter_mismatch f') (mismatch p)) Hm') as Km.
    pose proof (proj1 (key_test (filter_bump f') (bump p)) Hb') as Kb.
    pose proof (proj1 (key_test (filter_notInstalled f') (notInstalled p)) Hn') as Kn.
    assert (Hm2 : key_in (filter_mismatch f)
                  && negb (strict_eq (mismatch p) (get (filter_mismatch f))) = false)
      by (apply key_test; intros v Hv; apply Km, Hm, Hv).
    assert (Hb2 : key_in (filter_bump f)
                  && negb (strict_eq (bump p) (get (filter_bump f))) = false)
      by (apply key_test; intros v Hv; apply Kb, Hb, Hv).
    assert (Hn2 : key_in (filter_notInstalled f)
                  && negb (strict_eq (notInstalled p) (get (filter_notInstalled f))) = false)
      by (apply key_test; intros v Hv; apply Kn, Hn, Hv).
    rewrite Hm2, Hb2, Hn2. reflexivity.
Qed.

(** X9. The first four cells of a row are always texts. The fifth is a
    text too, except in one case: the record has no latest version, its
    registry error is undefined or the empty text, and its package error
    is undefined; then the cell is [undefined]. *)
Theorem label_undefined_cell (dep : Package) :
  length (label dep) = 5 /\
  (forall i, i < 4 -> exists s, label dep !! i = Some (JString s)) /\
  (label dep !! 4 = Some JUndefined <->
   latest dep = "" /\
   (regError dep = JUndefined \/ regError dep = JString "") /\
   pkgError dep = JUndefined).
Proof.
  split; [reflexivity|]. split.
  - intros i Hi. unfold label.
    destruct i as [|[|[|[|i]]]]; [eexists; reflexivity..|lia].
  - unfold label. cbn [lookup list_lookup]. unfold js_or.
    destruct (latest dep) as [|c l]; cbn [truthy_string].
    + destruct (regError dep) as [|[|c m]], (pkgError dep) as [|m'];
        cbn [truthy truthy_string]; split;
        try (intros [= ]); try (intros (_ & [H|H] & H'); discriminate);
        try (repeat split; auto; fail).
    + split; [intros [=]|intros [H _]; discriminate].
Qed.

End Properties.

(** ** The statements at concrete inputs *)

Example split_two_lines :
  split nl (String "a" (String nl (String "b" EmptyString))) = ["a"; "b"].
Proof. reflexivity. Qed.

(** The text of an empty table splits into one empty line. *)
Example split_empty_text : split nl "" = [""].
Proof. reflexivity. Qed.

(** A record whose manifest differs and a record with a major update,
    colours switched off: two titled sections with one row each, in the
    order of the groups, then the three closing Separators. *)
Example mismatch_then_major :
  exists ans w' q,
    @upgradeInteractive plainEnv [0; 1] (world_of [rimraf; leftPad]) = Some (ans, w') /\
    prompted w' = [q] /\
    console w' = [] /\
    packages ans = [1; 0] /\
    shown w' q
    = map Some
        [ OSeparator "";
          OSeparator "Update package.json to match version installed.";
          OChoice {| c_value := 1; c_name := NameLine "left-pad 1.1.0 > 1.0.0 ";
                     c_short := "left-pad@1.0.0" |};
          OSeparator "";
          OSeparator "Major Update Potentially breaking API changes. Use caution.";
          OChoice {| c_value := 0;
                     c_name := NameLine
                       "rimraf devDep 2.0.0 > 3.0.0 https://github.com/isaacs/rimraf";
                     c_short := "rimraf@3.0.0" |};
          OSeparator "";
          OSeparator "Space to select. Enter to start upgrading. Control-C to cancel.";
          OSeparator "" ].
Proof.
  eexists _, _, _. split; [vm_compute; reflexivity|]. repeat split.
Qed.

(** C3. The rewrite is not index-aligned when a cell holds a line
    break. Two records pass the filter of the first group and qualify:
    [noisy], whose registry error has two lines, and [leftPad]. The table
    gives the row of [noisy] two lines, the text is split at every line
    break, and the Choice at position 1, which wraps [leftPad], is named
    by the second line of the row of [noisy], not by the line of its own
    record. *)
Theorem rows_misaligned_on_line_break :
  exists g rest arr w' c,
    @UI_GROUPS rawEnv = g :: rest /\
    survivors (heap (world_of [noisy; leftPad])) (filter g) [0; 1]
    = [(0, noisy); (1, leftPad)] /\
    @createChoices rawEnv [0; 1] g (world_of [noisy; leftPad]) = Some (Some arr, w') /\
    length (choicesIn (map (fun l => heap w' !! l) arr)) = 2 /\
    choicesIn (map (fun l => heap w' !! l) arr) !! 1 = Some c /\
    c_value c = 1 /\
    @renderLine rawEnv (NameRow (@label rawEnv leftPad)) = "left-pad 1.1.0 > 1.0.0 " /\
    c_name c = NameLine "Not found" /\
    c_name c <> NameLine (@renderLine rawEnv (NameRow (@label rawEnv leftPad))).
Proof.
  eexists _, _, _, _, _. split; [reflexivity|]. split; [reflexivity|].
  split; [vm_compute; reflexivity|]. split; [reflexivity|]. split; [reflexivity|].
  split; [reflexivity|]. split; [reflexivity|]. split; [reflexivity|].
  vm_compute. discriminate.
Qed.

Lemma no_flags_no_choice_witness :
  wf_input (heap sample) [0; 1; 2] /\
  pkgAt (heap sample) 1 = Some upToDate /\
  mismatch upToDate <> Some true /\
  bump upToDate = None /\
  notInstalled upToDate <> Some true /\
  @choice ansiEnv 1 sample = Some (None, sample) /\
  exists ans w' qs,
    @upgradeInteractive ansiEnv [0; 1; 2] sample = Some (ans, w') /\
    prompted w' = prompted sample ++ qs /\
    (1 ∉ packages ans) /\
    forall q c, q ∈ qs -> Some (OChoice c) ∈ shown w' q -> c_value c <> 1.
Proof.
  assert (Hwf : wf_input (heap sample) [0; 1; 2]) by solve_wf.
  assert (Hm : mismatch upToDate <> Some true) by discriminate.
  assert (Hn : notInstalled upToDate <> Some true) by discriminate.
  exact (conj Hwf (conj eq_refl (conj Hm (conj eq_refl (conj Hn
           (@no_flags_no_choice ansiEnv [0; 1; 2] sample 1 upToDate
              Hwf eq_refl Hm eq_refl Hn)))))).
Defined.

Lemma createChoices_rows_aligned_witness :
  wf_input (heap sample) [0; 1; 2] /\
  (forall l p, (l, p) ∈ survivors (heap sample) (filter anyGroup) [0; 1; 2] ->
     one_line (@renderLine rawEnv (NameRow (@label rawEnv p))) = true) /\
  let sv := survivors (heap sample) (filter anyGroup) [0; 1; 2] in
  exists res w',
    @createChoices rawEnv [0; 1; 2] anyGroup sample = Some (res, w') /\
    let cs := choicesIn (map (fun l => heap w' !! l) (default [] res)) in
    (length cs = length sv /\
     forall i l p, sv !! i = Some (l, p) ->
       cs !! i = Some {| c_value := l;
                         c_name := NameLine (@renderLine rawEnv
                                               (NameRow (@label rawEnv p)));
                         c_short := short p |}).
Proof.
  assert (Hwf : wf_input (heap sample) [0; 1; 2]) by solve_wf.
  assert (Hone : forall l p,
             (l, p) ∈ survivors (heap sample) (filter anyGroup) [0; 1; 2] ->
             one_line (@renderLine rawEnv (NameRow (@label rawEnv p))) = true).
  { intros l p Hlp.
    change (survivors (heap sample) (filter anyGroup) [0; 1; 2])
      with [(0, rimraf); (2, leftPad)] in Hlp.
    apply elem_of_cons in Hlp as [[= -> ->]|Hlp]; [reflexivity|].
    apply elem_of_cons in Hlp as [[= -> ->]|Hlp]; [reflexivity|].
    inversion Hlp. }
  exact (conj Hwf (conj Hone
           (@createChoices_rows_aligned rawEnv [0; 1; 2] anyGroup sample Hwf Hone))).
Defined.

Lemma createChoices_block_witness :
  wf_input (heap sample) [0; 1; 2] /\
  let sv_of g := survivors (heap sample) (filter g) [0; 1; 2] in
  (exists res w',
     @createChoices ansiEnv [0; 1; 2] anyGroup sample = Some (res, w') /\
     match sv_of anyGroup with
     | [] => res = None /\ w' = sample
     | _ => exists arr cs,
              res = Some arr /\
              map c_value cs = map fst (sv_of anyGroup) /\
              map (fun l => heap w' !! l) arr
              = map Some (OSeparator (@reset ansiEnv "")
                            :: OSeparator (@reset ansiEnv (title anyGroup))
                            :: map OChoice cs)
     end) /\
  (exists ans w' qs,
     @upgradeInteractive ansiEnv [0; 1; 2] sample = Some (ans, w') /\
     prompted w' = prompted sample ++ qs /\
     forall q, q ∈ qs ->
       shown w' q
       = map Some (flat_map (fun g => match sv_of g with
                                      | [] => []
                                      | _ => OSeparator (@reset ansiEnv "")
                                             :: OSeparator (@reset ansiEnv (title g))
                                             :: @groupChoices ansiEnv (sv_of g)
                                      end) (@UI_GROUPS ansiEnv) ++ @trailer ansiEnv)).
Proof.
  assert (Hwf : wf_input (heap sample) [0; 1; 2]) by solve_wf.
  exact (conj Hwf (@createChoices_block ansiEnv [0; 1; 2] anyGroup sample Hwf)).
Defined.

Lemma nothing_to_upgrade_witness :
  wf_input (heap (world_of [upToDate])) [0] /\
  (forall g l p, g ∈ @UI_GROUPS ansiEnv -> l ∈ [0] ->
     pkgAt (heap (world_of [upToDate])) l = Some p ->
     filterCallback (filter g) p && qualifies p = false) /\
  @upgradeInteractive ansiEnv [0] (world_of [upToDate])
  = Some ({| packages := [] |},
          {| heap := heap (world_of [upToDate]);
             console := console (world_of [upToDate])
                          ++ ["All dependencies are up to date!"];
             prompted := prompted (world_of [upToDate]);
             stdout_rows := stdout_rows (world_of [upToDate]) |}).
Proof.
  assert (Hwf : wf_input (heap (world_of [upToDate])) [0]) by solve_wf.
  assert (Hnone : forall g l p, g ∈ @UI_GROUPS ansiEnv -> l ∈ [0] ->
            pkgAt (heap (world_of [upToDate])) l = Some p ->
            filterCallback (filter g) p && qualifies p = false).
  { intros g l p Hg Hl Hp. apply list_elem_of_singleton in Hl. subst l.
    injection Hp as <-.
    repeat (apply elem_of_cons in Hg as [->|Hg]; [reflexivity|]). inversion Hg. }
  exact (conj Hwf (conj Hnone
           (@nothing_to_upgrade ansiEnv [0] (world_of [upToDate]) Hwf Hnone))).
Defined.

Lemma prompt_list_trailer_witness :
  wf_input (heap sample) [0; 1; 2] /\
  let blocks := @allBlocks ansiEnv (fun g => survivors (heap sample) (filter g) [0; 1; 2])
                  (@UI_GROUPS ansiEnv) in
  blocks <> [] /\
  exists ans w' q,
    @upgradeInteractive ansiEnv [0; 1; 2] sample = Some (ans, w') /\
    prompted w' = prompted sample ++ [q] /\
    shown w' q
    = map Some
        (blocks ++
         [ OSeparator (@reset ansiEnv "");
           OSeparator
             (@reset ansiEnv
                "Space to select. Enter to start upgrading. Control-C to cancel.");
           OSeparator (@reset ansiEnv "") ]).
Proof.
  assert (Hwf : wf_input (heap sample) [0; 1; 2]) by solve_wf.
  assert (Hne : @allBlocks ansiEnv (fun g => survivors (heap sample) (filter g) [0; 1; 2])
                  (@UI_GROUPS ansiEnv) <> []) by (vm_compute; discriminate).
  exact (conj Hwf (conj Hne (@prompt_list_trailer ansiEnv [0; 1; 2] sample Hwf Hne))).
Defined.

(** C7 as the claim states it fails: for one record to upgrade, the
    list handed to the prompt is not the block of its group followed by
    just the blank Separator and the Separator with the instructions. *)
Lemma trailing_separators_counterexample :
  exists ans w' q,
    @upgradeInteractive ansiEnv [0] (world_of [rimraf]) = Some (ans, w') /\
    prompted w' = [q] /\
    shown w' q
    <> map Some
         (@allBlocks ansiEnv (fun g => survivors (heap (world_of [rimraf])) (filter g) [0])
            (@UI_GROUPS ansiEnv) ++
          [ OSeparator (@reset ansiEnv "");
            OSeparator
              (@reset ansiEnv
                 "Space to select. Enter to start upgrading. Control-C to cancel.") ]).
Proof.
  eexists _, _, _. split; [vm_compute; reflexivity|]. split; [reflexivity|].
  vm_compute. intros H. apply (f_equal length) in H. discriminate H.
Qed.

Lemma groups_in_declaration_order_witness :
  wf_input (heap sample) [0; 1; 2] /\
  [2; 0; 1] ≡ₚ [0; 1; 2] /\
  let keeps g l := match pkgAt (heap sample) l with
                   | Some p => filterCallback (filter g) p && qualifies p
                   | None => false
                   end in
  map filter (@UI_GROUPS ansiEnv)
  = [ {| filter_mismatch := Some (Some true); filter_bump := Some None;
         filter_notInstalled := None |};
      {| filter_mismatch := None; filter_bump := Some None;
         filter_notInstalled := Some (Some true) |};
      {| filter_mismatch := None; filter_bump := Some (Some patch);
         filter_notInstalled := None |};
      {| filter_mismatch := None; filter_bump := Some (Some minor);
         filter_notInstalled := None |};
      {| filter_mismatch := None; filter_bump := Some (Some major);
         filter_notInstalled := None |};
      {| filter_mismatch := None; filter_bump := Some (Some nonSemver);
         filter_notInstalled := None |} ] /\
  let kept g := List.filter (keeps g) [2; 0; 1] in
  exists ans w',
    @upgradeInteractive ansiEnv [2; 0; 1] sample = Some (ans, w') /\
    (forall g, kept g <> [] <-> existsb (keeps g) [0; 1; 2] = true) /\
    (((forall g, g ∈ @UI_GROUPS ansiEnv -> kept g = []) /\
      prompted w' = prompted sample) \/
     ((exists g, g ∈ @UI_GROUPS ansiEnv /\ kept g <> []) /\
      exists q (choicesOf : IUIGroup -> list Choice),
        prompted w' = prompted sample ++ [q] /\
        (forall g, map c_value (choicesOf g) = kept g) /\
        shown w' q
        = map Some
            (flat_map (fun g => match choicesOf g with
                                | [] => []
                                | c :: rest => OSeparator (@reset ansiEnv "")
                                               :: OSeparator (@reset ansiEnv (title g))
                                               :: OChoice c :: map OChoice rest
                                end) (@UI_GROUPS ansiEnv)
             ++ [ OSeparator (@reset ansiEnv "");
                  OSeparator
                    (@reset ansiEnv
                       "Space to select. Enter to start upgrading. Control-C to cancel.");
                  OSeparator (@reset ansiEnv "") ]))).
Proof.
  assert (Hwf : wf_input (heap sample) [0; 1; 2]) by solve_wf.
  assert (Hperm : [2; 0; 1] ≡ₚ [0; 1; 2]).
  { etrans; [apply perm_swap|]. apply perm_skip, perm_swap. }
  destruct (@groups_in_declaration_order ansiEnv [0; 1; 2] sample Hwf) as [Hfilters Hrun].
  exact (conj Hwf (conj Hperm (conj Hfilters (Hrun [2; 0; 1] Hperm)))).
Defined.

Lemma records_untouched_witness :
  wf_input (heap sample) [0; 1; 2] /\
  (forall lines i cs v v',
     @rewriteNames lines i cs v = Some (tt, v') ->
     forall a, nameOnly (heap v !! a) (heap v' !! a)) /\
  exists ans w' qs,
    @upgradeInteractive ansiEnv [0; 1; 2] sample = Some (ans, w') /\
    prompted w' = prompted sample ++ qs /\
    (forall a o, heap sample !! a = Some o -> heap w' !! a = Some o) /\
    (forall q c, q ∈ qs -> Some (OChoice c) ∈ shown w' q ->
       c_value c ∈ [0; 1; 2] /\
       exists p, pkgAt (heap sample) (c_value c) = Some p /\
                 pkgAt (heap w') (c_value c) = Some p /\
                 c_short c = short p) /\
    (forall l, l ∈ packages ans ->
       l ∈ [0; 1; 2] /\ pkgAt (heap w') l = pkgAt (heap sample) l).
Proof.
  assert (Hwf : wf_input (heap sample) [0; 1; 2]) by solve_wf.
  exact (conj Hwf (@records_untouched ansiEnv [0; 1; 2] sample Hwf)).
Defined.

(** ** The further properties at concrete inputs *)

(** No row of the sample has an undefined cell. *)
Lemma sample_rows_defined l p :
  l ∈ [0; 1; 2] -> pkgAt (heap sample) l = Some p ->
  mismatch p = Some true \/ bump p <> None \/ notInstalled p = Some true ->
  JUndefined ∉ @label ansiEnv p.
Proof.
  intros Hl Hp _ Hin.
  assert (Hp' : p = rimraf \/ p = upToDate \/ p = leftPad).
  { apply elem_of_cons in Hl as [->|Hl]; [injection Hp as <-; auto|].
    apply elem_of_cons in Hl as [->|Hl]; [injection Hp as <-; auto|].
    apply elem_of_cons in Hl as [->|Hl]; [injection Hp as <-; auto|].
    inversion Hl. }
  destruct Hp' as [-> | [-> | ->]]; vm_compute in Hin;
    repeat (apply elem_of_cons in Hin as [Hin|Hin]; [discriminate|]); inversion Hin.
Qed.

Lemma flagged_record_is_offered_witness :
  wf_input (heap sample) [0; 1; 2] /\
  (forall l' p', l' ∈ [0; 1; 2] -> pkgAt (heap sample) l' = Some p' ->
     mismatch p' = Some true \/ bump p' <> None \/ notInstalled p' = Some true ->
     JUndefined ∉ @label ansiEnv p') /\
  0 ∈ [0; 1; 2] /\
  pkgAt (heap sample) 0 = Some rimraf /\
  (mismatch rimraf = Some true \/ bump rimraf <> None \/ notInstalled rimraf = Some true) /\
  exists ans w' q c,
    @upgradeInteractive ansiEnv [0; 1; 2] sample = Some (ans, w') /\
    prompted w' = prompted sample ++ [q] /\
    Some (OChoice c) ∈ shown w' q /\
    c_value c = 0 /\
    c_short c = moduleName rimraf +:+ "@" +:+ latest rimraf.
Proof.
  assert (Hwf : wf_input (heap sample) [0; 1; 2]) by solve_wf.
  assert (Hin : 0 ∈ [0; 1; 2]) by left.
  assert (Hflag : mismatch rimraf = Some true \/ bump rimraf <> None
                  \/ notInstalled rimraf = Some true) by (right; left; discriminate).
  exact (conj Hwf (conj sample_rows_defined (conj Hin (conj eq_refl (conj Hflag
           (@flagged_record_is_offered ansiEnv [0; 1; 2] sample 0 rimraf
              Hwf sample_rows_defined Hin eq_refl Hflag)))))).
Defined.

Lemma up_to_date_or_one_question_witness :
  wf_input (heap sample) [0; 1; 2] /\
  (forall l p, l ∈ [0; 1; 2] -> pkgAt (heap sample) l = Some p ->
     mismatch p = Some true \/ bump p <> None \/ notInstalled p = Some true ->
     JUndefined ∉ @label ansiEnv p) /\
  exists ans w',
    @upgradeInteractive ansiEnv [0; 1; 2] sample = Some (ans, w') /\
    (((forall l p, l ∈ [0; 1; 2] -> pkgAt (heap sample) l = Some p ->
         mismatch p <> Some true /\ bump p = None /\ notInstalled p <> Some true) /\
      console w' = console sample ++ ["All dependencies are up to date!"] /\
      prompted w' = prompted sample /\
      heap w' = heap sample /\
      packages ans = []) \/
     ((exists l p, l ∈ [0; 1; 2] /\ pkgAt (heap sample) l = Some p /\
         (mismatch p = Some true \/ bump p <> None \/ notInstalled p = Some true)) /\
      console w' = console sample /\
      exists q, prompted w' = prompted sample ++ [q] /\
                q_name q = "packages" /\ q_type q = "checkbox")).
Proof.
  assert (Hwf : wf_input (heap sample) [0; 1; 2]) by solve_wf.
  exact (conj Hwf (conj sample_rows_defined
           (@up_to_date_or_one_question ansiEnv [0; 1; 2] sample
              Hwf sample_rows_defined))).
Defined.

Lemma prompt_entries_are_the_new_objects_witness :
  wf_input (heap sample) [0; 1; 2] /\
  exists ans w' qs,
    @upgradeInteractive ansiEnv [0; 1; 2] sample = Some (ans, w') /\
    prompted w' = prompted sample ++ qs /\
    length qs <= 1 /\
    (qs = [] -> heap w' = heap sample) /\
    forall q, q ∈ qs ->
      q_choices q ≡ₚ seq (length (heap sample)) (length (heap w') - length (heap sample)) /\
      NoDup (q_choices q) /\
      forall a, a ∈ q_choices q -> length (heap sample) <= a < length (heap w').
Proof.
  assert (Hwf : wf_input (heap sample) [0; 1; 2]) by solve_wf.
  exact (conj Hwf (@prompt_entries_are_the_new_objects ansiEnv [0; 1; 2] sample Hwf)).
Defined.

Lemma createChoices_effects_witness :
  wf_input (heap sample) [0; 1; 2] /\
  let n := length (survivors (heap sample) (filter anyGroup) [0; 1; 2]) in
  exists res w' added,
    @createChoices ansiEnv [0; 1; 2] anyGroup sample = Some (res, w') /\
    heap w' = heap sample ++ added /\
    length added = (if Nat.eqb n 0 then 0 else n + 2) /\
    console w' = console sample /\
    prompted w' = prompted sample /\
    stdout_rows w' = stdout_rows sample /\
    wf_input (heap w') [0; 1; 2] /\
    (forall l, l ∈ [0; 1; 2] -> pkgAt (heap w') l = pkgAt (heap sample) l) /\
    match res with
    | None => n = 0
    | Some arr => n <> 0 /\ arr ≡ₚ seq (length (heap sample)) (n + 2)
    end.
Proof.
  assert (Hwf : wf_input (heap sample) [0; 1; 2]) by solve_wf.
  exact (conj Hwf (@createChoices_effects ansiEnv [0; 1; 2] anyGroup sample Hwf)).
Defined.

Lemma choice_names_are_lines_witness :
  wf_input (heap sample) [0; 1; 2] /\
  exists res w',
    @createChoices ansiEnv [0; 1; 2] anyGroup sample = Some (res, w') /\
    forall arr a c,
      res = Some arr -> a ∈ arr -> heap w' !! a = Some (OChoice c) ->
      exists s, c_name c = NameLine s /\ has_char nl s = false.
Proof.
  assert (Hwf : wf_input (heap sample) [0; 1; 2]) by solve_wf.
  exact (conj Hwf (@choice_names_are_lines ansiEnv [0; 1; 2] anyGroup sample Hwf)).
Defined.

Lemma second_run_shows_the_same_witness :
  wf_input (heap sample) [0; 1; 2] /\
  exists a1 w1 a2 w2 qs1 qs2,
    @upgradeInteractive ansiEnv [0; 1; 2] sample = Some (a1, w1) /\
    @upgradeInteractive ansiEnv [0; 1; 2] w1 = Some (a2, w2) /\
    prompted w1 = prompted sample ++ qs1 /\
    prompted w2 = prompted w1 ++ qs2 /\
    map (shown w2) qs2 = map (shown w1) qs1 /\
    map (shown w2) qs1 = map (shown w1) qs1 /\
    forall q1 q2 a, q1 ∈ qs1 -> q2 ∈ qs2 -> a ∈ q_choices q1 -> a ∉ q_choices q2.
Proof.
  assert (Hwf : wf_input (heap sample) [0; 1; 2]) by solve_wf.
  exact (conj Hwf (@second_run_shows_the_same ansiEnv [0; 1; 2] sample Hwf)).
Defined.
